(** * FontCollector: the override-tag scanner and the font matcher

    A shallow embedding of [fontCollector.py]: the regular expressions it
    compiles, [parseTags], [parseLine], [getAssStyle], [searchFont],
    [findUsedFont], [isMkv], [copyFont], [createFont] and
    [initializeFontCollection], followed by the properties proved about
    them.

    Conventions.
    - A Python [str] is a [list ascii]; a character is one code point below
      256, read as Latin-1.
    - A Python [int] is a [Z].
    - [print] appends one line to an output log that the functions return
      next to their value.
    - [re] is read as Python 3.7 and later run it: after an empty match the
      search resumes at the same place and must then advance.
    - A Python set is passed to a [for] loop as the list of its members in
      the order the loop meets them, which Python leaves open. *)

From Stdlib Require Import ZArith Lia List Ascii String DecimalString Bool Permutation Sorted.
From stdpp Require Import base decidable countable gmap strings list.
Import ListNotations.

Open Scope Z_scope.
Open Scope list_scope.

(** ** Strings *)

Abbreviation str := (list ascii).

(** [lit "abc"] is the Python literal ["abc"]. *)
Definition lit (s : string) : str := list_ascii_of_string s.

Definition chr_in (lo hi : nat) (c : ascii) : bool :=
  (lo <=? nat_of_ascii c)%nat && (nat_of_ascii c <=? hi)%nat.

Definition is_chr (a c : ascii) : bool := Ascii.eqb a c.
Definition not_chr (a c : ascii) : bool := negb (Ascii.eqb a c).

(** [[0-9]], and [\d] on Latin-1 (no other code point below 256 is a
    decimal digit). *)
Definition is_digit (c : ascii) : bool := chr_in 48 57 c.

(** [.] without DOTALL: everything but the line feed. *)
Definition is_dot (c : ascii) : bool := negb (nat_of_ascii c =? 10)%nat.

(** [\w] on Latin-1: the alphanumeric code points and the underscore. *)
Definition is_word (c : ascii) : bool :=
  let n := nat_of_ascii c in
  chr_in 48 57 c || chr_in 65 90 c || chr_in 97 122 c || (n =? 95)%nat
  || (n =? 170)%nat || (n =? 178)%nat || (n =? 179)%nat || (n =? 181)%nat
  || (n =? 185)%nat || (n =? 186)%nat || chr_in 188 190 c
  || chr_in 192 214 c || chr_in 216 246 c || chr_in 248 255 c.

(** The characters [str.strip()] removes, on Latin-1. *)
Definition is_space (c : ascii) : bool :=
  let n := nat_of_ascii c in
  chr_in 9 13 c || chr_in 28 32 c || (n =? 133)%nat || (n =? 160)%nat.

(** [str.lower()] on Latin-1. *)
Definition lower_chr (c : ascii) : ascii :=
  let n := nat_of_ascii c in
  if chr_in 65 90 c || chr_in 192 214 c || chr_in 216 222 c
  then ascii_of_nat (n + 32) else c.

Definition lower (s : str) : str := map lower_chr s.

Fixpoint lstrip (s : str) : str :=
  match s with
  | c :: s' => if is_space c then lstrip s' else s
  | [] => []
  end.

Definition strip (s : str) : str := rev (lstrip (rev (lstrip s))).

(** [x in s] for a one-character [x]. *)
Definition contains (x : ascii) (s : str) : bool := existsb (Ascii.eqb x) s.

(** ** Regular expressions

    The fragment of [re] the program uses.  Every repetition in its
    patterns is over a single character class, so [Rep] repeats a class. *)

Module Re.

Inductive regex : Type :=
| Eps
| Cls (p : ascii -> bool)
| Seq (r1 r2 : regex)
| Alt (r1 r2 : regex)
| Opt (r : regex)
| Rep (greedy : bool) (least : nat) (p : ascii -> bool)
| Grp (n : nat) (r : regex)
| Ahead (r : regex)
| Behind (ps : list (ascii -> bool))
| Eos.

(** A literal string. *)
Fixpoint Lit (s : str) : regex :=
  match s with
  | [] => Eps
  | [c] => Cls (is_chr c)
  | c :: s' => Seq (Cls (is_chr c)) (Lit s')
  end.

(** The groups captured so far, latest first. *)
Definition caps := list (nat * str).

(** A position in the subject: the text before it, reversed, the text after
    it, and the captures. *)
Record cursor : Type := Cursor {
  before : str;
  after : str;
  groups : caps
}.

Definition group (n : nat) (g : caps) : option str :=
  match find (fun kv => (fst kv =? n)%nat) g with
  | Some kv => Some (snd kv)
  | None => None
  end.

(** [(?<=...)] of fixed width: the classes [ps], the last one next to the
    position, tested against the text before it. *)
Fixpoint behind_ok (ps : list (ascii -> bool)) (b : str) : bool :=
  match ps, b with
  | [], _ => true
  | p :: ps', c :: b' => p c && behind_ok ps' b'
  | _ :: _, [] => false
  end.

(** [$]: the end of the subject, or just before a final line feed. *)
Definition at_eos (a : str) : bool :=
  match a with
  | [] => true
  | [c] => (nat_of_ascii c =? 10)%nat
  | _ => false
  end.

(** The ways [p{least,}] (greedy or lazy) can end, in the order the
    backtracking matcher tries them. *)
Fixpoint rep (greedy : bool) (p : ascii -> bool) (least : nat)
    (b a : str) (g : caps) : list cursor :=
  let here := match least with O => [Cursor b a g] | S _ => [] end in
  match a with
  | c :: a' =>
      if p c then
        let more := rep greedy p (pred least) (c :: b) a' g in
        if greedy then more ++ here else here ++ more
      else here
  | [] => here
  end.

(** [run r c]: every way [r] can match from cursor [c], in the order the
    backtracking matcher reaches them; the head is the match [re] reports. *)
Fixpoint run (r : regex) (c : cursor) : list cursor :=
  match r with
  | Eps => [c]
  | Cls p =>
      match after c with
      | x :: a' => if p x then [Cursor (x :: before c) a' (groups c)] else []
      | [] => []
      end
  | Seq r1 r2 => flat_map (run r2) (run r1 c)
  | Alt r1 r2 => run r1 c ++ run r2 c
  | Opt r1 => run r1 c ++ [c]
  | Rep greedy least p => rep greedy p least (before c) (after c) (groups c)
  | Grp n r1 =>
      map (fun c' =>
             let k := (length (before c') - length (before c))%nat in
             Cursor (before c') (after c')
                    ((n, rev (firstn k (before c'))) :: groups c'))
          (run r1 c)
  | Ahead r1 =>
      match run r1 c with
      | _ :: _ => [c]
      | [] => []
      end
  | Behind ps => if behind_ok (rev ps) (before c) then [c] else []
  | Eos => if at_eos (after c) then [c] else []
  end.

(** One match: its offset in the subject, its length and its groups. *)
Record mtch : Type := Mtch {
  m_start : nat;
  m_len : nat;
  m_text : str;
  m_groups : caps
}.

Definition consumed (b : str) (c : cursor) : nat :=
  (length (before c) - length b)%nat.

(** The match at a position; with [must_advance] an empty match is
    refused and the matcher backtracks to the next way. *)
Definition match_at (r : regex) (b a : str) (must_advance : bool)
    : option (nat * caps) :=
  let ok c := negb must_advance || negb (consumed b c =? 0)%nat in
  match List.filter ok (run r (Cursor b a [])) with
  | c :: _ => Some (consumed b c, groups c)
  | [] => None
  end.

(** What the scan finds at one position, and how many characters the
    last match reaches past the next one.  After an empty match the search
    resumes at the same position and must advance. *)
Definition at_pos (r : regex) (b a : str) : list mtch * nat :=
  let mk n g := Mtch (length b) n (firstn n a) g in
  match match_at r b a false with
  | None => ([], O)
  | Some (O, g) =>
      match match_at r b a true with
      | None => ([mk O g], O)
      | Some (n, g') => ([mk O g; mk n g'], pred n)
      end
  | Some (n, g) => ([mk n g], pred n)
  end.

(** The non-overlapping matches from left to right, as [findall],
    [finditer] and [split] search them: a match is tried at every position
    that the previous match does not cover.  [skip] counts the characters
    still covered by the previous match. *)
Fixpoint scan (r : regex) (b a : str) (skip : nat) : list mtch :=
  match skip with
  | S k =>
      match a with
      | [] => []
      | c :: a' => scan r (c :: b) a' k
      end
  | O =>
      let '(found, skip') := at_pos r b a in
      found ++ match a with
               | [] => []
               | c :: a' => scan r (c :: b) a' skip'
               end
  end.

Definition finditer (r : regex) (s : str) : list mtch := scan r [] s O.

(** A group's text in a result of [findall]: empty when the group took no
    part in the match. *)
Definition group_text (n : nat) (m : mtch) : str :=
  match group n (m_groups m) with
  | Some t => t
  | None => []
  end.

(** [findall] of a pattern without groups: the matched texts. *)
Definition findall (r : regex) (s : str) : list str :=
  map m_text (finditer r s).

(** [findall] of a pattern with groups [1..k]: the tuples of group texts. *)
Definition findall_groups (r : regex) (k : nat) (s : str) : list (list str) :=
  map (fun m => map (fun n => group_text n m) (seq 1 k)) (finditer r s).

(** [split] of a pattern without groups: the pieces between the matches. *)
Fixpoint pieces (s : str) (pos : nat) (ms : list mtch) : list str :=
  match ms with
  | [] => [skipn pos s]
  | m :: ms' =>
      firstn (m_start m - pos) (skipn pos s)
        :: pieces s (m_start m + m_len m) ms'
  end.

Definition split (r : regex) (s : str) : list str :=
  pieces s O (finditer r s).

End Re.

(** ** The compiled patterns *)

Import Re.

Definition bs : ascii := "\"%char.

(** [LINE_PATTERN]: an optional override block ([tags], group 1) and the
    text after it ([text], group 2). *)
Definition LINE_PATTERN : regex :=
  Seq (Opt (Seq (Cls (is_chr "{"))
                (Seq (Grp 1 (Rep true 0 (not_chr "}")))
                     (Opt (Cls (is_chr "}"))))))
      (Grp 2 (Rep true 0 (not_chr "{"))).

(** [INT_PATTERN]: an optional sign and digits. *)
Definition INT_PATTERN : regex :=
  Seq (Opt (Cls (fun c => is_chr "+" c || is_chr "-" c)))
      (Rep true 1 is_digit).

(** [TAG_R_PATTERN]: the reset marker, a backslash and [r]. *)
Definition TAG_R_PATTERN : regex := Lit [bs; "r"%char].

(** The shape [TAG_ITALIC_PATTERN] and [TAG_BOLD_PATTERN] share: the tag
    letter [x] after a backslash, then digits, bare or behind one sign. *)
Definition TAG_NUM_PATTERN (x : ascii) : regex :=
  Alt (Seq (Lit [bs; x]) (Rep true 1 is_digit))
      (Alt (Seq (Lit [bs; x; "+"%char]) (Rep true 1 is_digit))
           (Seq (Lit [bs; x; "-"%char]) (Rep true 1 is_digit))).

Definition TAG_ITALIC_PATTERN : regex := TAG_NUM_PATTERN "i".
Definition TAG_BOLD_PATTERN : regex := TAG_NUM_PATTERN "b".

(** [TAG_FN_PATTERN]: five alternatives and eight groups. *)
Definition after_fn : regex := Behind (map is_chr [bs; "f"%char; "n"%char]).
Definition lazy_dots : regex := Rep false 0 is_dot.

Definition TAG_FN_PATTERN : regex :=
  Alt (Seq after_fn
           (Seq (Grp 1 lazy_dots)
                (Ahead (Alt (Lit [")"%char; bs])
                       (Alt (Lit [bs])
                            (Seq (Behind [is_word])
                                 (Seq (Ahead Eos)
                                      (Seq (Behind [is_word]) (Ahead Eos)))))))))
 (Alt (Seq (Behind (map is_chr ["f"%char; "n"%char]))
           (Seq (Grp 2 lazy_dots)
                (Seq (Grp 3 (Cls (is_chr "(")))
                     (Seq (Grp 4 lazy_dots) (Grp 5 (Cls (is_chr ")")))))))
 (Alt (Seq after_fn (Seq (Grp 6 lazy_dots) (Ahead (Lit [bs]))))
 (Alt (Seq after_fn (Seq (Grp 7 lazy_dots) (Ahead (Seq (Cls (is_chr ")")) Eos))))
      (Seq after_fn (Seq (Grp 8 lazy_dots) (Ahead (Lit [")"%char; bs]))))))).

(** ** The data model *)

Record Font : Type := mkFont {
  fontPath : str;
  f_fontName : str;
  f_weight : Z;
  f_italic : bool
}.

(** [Font.__eq__] and [Font.__hash__] leave the path out. *)
Definition Font_key (f : Font) : str * bool * Z :=
  (f_fontName f, f_italic f, f_weight f).

Definition Font_eqb (f1 f2 : Font) : bool :=
  bool_decide (Font_key f1 = Font_key f2).

Record AssStyle : Type := mkAssStyle {
  fontName : str;
  weight : Z;
  italic : bool
}.

#[global] Instance AssStyle_eq_dec : EqDecision AssStyle.
Proof. solve_decision. Defined.

#[global] Instance AssStyle_countable : Countable AssStyle :=
  inj_countable'
    (fun s => (fontName s, weight s, italic s))
    (fun t => mkAssStyle t.1.1 t.1.2 t.2)
    (fun s => match s with mkAssStyle _ _ _ => eq_refl end).

(** [style._replace(...)]. *)
Definition replace_weight (s : AssStyle) (w : Z) : AssStyle :=
  mkAssStyle (fontName s) w (italic s).
Definition replace_italic (s : AssStyle) (i : bool) : AssStyle :=
  mkAssStyle (fontName s) (weight s) i.
Definition replace_fontName (s : AssStyle) (n : str) : AssStyle :=
  mkAssStyle n (weight s) (italic s).
Definition f_replace_weight (f : Font) (w : Z) : Font :=
  mkFont (fontPath f) (f_fontName f) w (f_italic f).

(** ** Exceptions and printed output *)

Inductive exn : Type := KeyError | IndexError | ValueError | SystemExit.

Inductive result (A : Type) : Type :=
| Ok (a : A)
| Raise (e : exn).
Arguments Ok {A} a.
Arguments Raise {A} e.

(** A computation: its outcome and the lines it printed. *)
Definition M (A : Type) : Type := result A * list str.

Definition ret {A} (a : A) : M A := (Ok a, []).
Definition raise {A} (e : exn) : M A := (Raise e, []).
Definition print (line : str) : M unit := (Ok tt, [line]).
Definition bind {A B} (m : M A) (f : A -> M B) : M B :=
  match m with
  | (Ok a, out) => let '(r, out') := f a in (r, out ++ out')
  | (Raise e, out) => (Raise e, out)
  end.

Notation "'let*' x ':=' m 'in' k" := (bind m (fun x => k))
  (at level 10, x pattern, m at level 100, k at level 200).

(** [l[0]] and [l[-1]]. *)
Definition first {A} (l : list A) : M A :=
  match l with
  | x :: _ => ret x
  | [] => raise IndexError
  end.

Definition last_item {A} (l : list A) : M A :=
  match rev l with
  | x :: _ => ret x
  | [] => raise IndexError
  end.

(** colorama's escape sequences. *)
Definition esc : ascii := ascii_of_nat 27.
Definition Fore_RED : str := esc :: lit "[31m".
Definition Fore_WHITE : str := esc :: lit "[37m".
Definition Fore_LIGHTRED_EX : str := esc :: lit "[91m".
Definition quote : str := [ascii_of_nat 34].

(** [str(n)] and [int(s)].  [int] is modelled on the texts [INT_PATTERN]
    matches, the only ones the program passes to it. *)
Definition str_of_int (n : Z) : str :=
  lit (DecimalString.NilZero.string_of_int (Z.to_int n)).

Definition digit_val (c : ascii) : Z := Z.of_nat (nat_of_ascii c) - 48.

Fixpoint digits_val (acc : Z) (s : str) : option Z :=
  match s with
  | [] => Some acc
  | c :: s' =>
      if is_digit c then digits_val (10 * acc + digit_val c) s' else None
  end.

Definition unsigned_val (s : str) : option Z :=
  match s with
  | [] => None
  | _ :: _ => digits_val 0 s
  end.

Definition int (s : str) : M Z :=
  let signed :=
    match s with
    | c :: d =>
        if is_chr "+" c then unsigned_val d
        else if is_chr "-" c then option_map Z.opp (unsigned_val d)
        else unsigned_val s
    | [] => None
    end in
  match signed with
  | Some n => ret n
  | None => raise ValueError
  end.

(** ** The override-tag scanner *)

Definition stripFontname (fontName : str) : str :=
  match fontName with
  | c :: rest => if is_chr "@" c then rest else fontName
  | [] => fontName
  end.

(** The [if]/[elif] chain of [parseTags] on the bold number. *)
Definition set_bold (boldNumber : Z) (style : AssStyle) : AssStyle :=
  if boldNumber <=? 0 then replace_weight style 400
  else if boldNumber =? 1 then replace_weight style 700
  else if (2 <=? boldNumber) && (boldNumber <=? 150) then replace_weight style 100
  else if (151 <=? boldNumber) && (boldNumber <=? 250) then replace_weight style 200
  else if (251 <=? boldNumber) && (boldNumber <=? 350) then replace_weight style 300
  else if (351 <=? boldNumber) && (boldNumber <=? 450) then replace_weight style 400
  else if (451 <=? boldNumber) && (boldNumber <=? 550) then replace_weight style 500
  else if (551 <=? boldNumber) && (boldNumber <=? 650) then replace_weight style 600
  else if (651 <=? boldNumber) && (boldNumber <=? 750) then replace_weight style 700
  else if (751 <=? boldNumber) && (boldNumber <=? 850) then replace_weight style 800
  else if 851 <=? boldNumber then replace_weight style 900
  else style.

(** [s1 == s2] on strings. *)
Fixpoint str_eqb (s1 s2 : str) : bool :=
  match s1, s2 with
  | [], [] => true
  | c1 :: s1', c2 :: s2' => Ascii.eqb c1 c2 && str_eqb s1' s2'
  | _, _ => false
  end.

Definition nonempty {A} (l : list A) : bool :=
  match l with
  | [] => false
  | _ :: _ => true
  end.

Definition fn_warning : str :=
  Fore_LIGHTRED_EX ++ lit "Warning: fontName can not contains " ++ quote
    ++ lit "(" ++ quote ++ lit " or " ++ quote ++ lit ")" ++ quote ++ lit "."
    ++ Fore_WHITE.

(** [cleanTag = TAG_R_PATTERN.split(tags)[-1]]. *)
Definition cleanTag_of (tags : str) : M str :=
  last_item (split TAG_R_PATTERN tags).

Definition apply_bold (cleanTag : str) (style : AssStyle) : M AssStyle :=
  let bold := findall TAG_BOLD_PATTERN cleanTag in
  if nonempty bold then
    let* lastBold := last_item bold in
    let* digits := first (findall INT_PATTERN lastBold) in
    let* boldNumber := int digits in
    ret (set_bold boldNumber style)
  else ret style.

Definition apply_italic (cleanTag : str) (style : AssStyle) : M AssStyle :=
  let italic := findall TAG_ITALIC_PATTERN cleanTag in
  if nonempty italic then
    let* lastItalic := last_item italic in
    let italicNumber := findall INT_PATTERN lastItalic in
    let* n0 := first italicNumber in
    if str_eqb n0 (lit "1") then ret (replace_italic style true)
    else ret style
  else ret style.

Definition apply_fn (cleanTag : str) (style : AssStyle) : M AssStyle :=
  let font := findall_groups TAG_FN_PATTERN 8 cleanTag in
  match rev font with
  | lastFont :: _ =>
      if (0 <? length lastFont)%nat then
        let* font := first lastFont in
        if negb (contains "(" font) && negb (contains ")" font) then
          ret (replace_fontName style (stripFontname (lower (strip font))))
        else
          let* _ := print fn_warning in
          ret style
      else ret style
  | [] => ret style
  end.

Definition parseTags (tags : str) (style : AssStyle) : M AssStyle :=
  let* cleanTag := cleanTag_of tags in
  if nonempty cleanTag then
    let* style := apply_bold cleanTag style in
    let* style := apply_italic cleanTag style in
    apply_fn cleanTag style
  else ret style.

(** The loop of [parseLine] over the (tags, text) pairs, with its two
    variables [allLineTags] and [styleSet]. *)
Fixpoint parseLine_loop (pairs : list (str * str)) (style : AssStyle)
    (allLineTags : str) (styleSet : gset AssStyle) : M (gset AssStyle) :=
  match pairs with
  | [] => ret styleSet
  | (tags, text) :: rest =>
      let allLineTags := allLineTags ++ tags ++ [bs; "}"%char] in
      let* s := parseTags allLineTags style in
      parseLine_loop rest style allLineTags (styleSet ∪ {[ s ]})
  end.

(** [LINE_PATTERN.findall(lineRawText)[:-1]]. *)
Definition line_pairs (lineRawText : str) : list (str * str) :=
  removelast
    (map (fun m => (group_text 1 m, group_text 2 m))
         (finditer LINE_PATTERN lineRawText)).

Definition parseLine (lineRawText : str) (style : AssStyle)
    : M (gset AssStyle) :=
  parseLine_loop (line_pairs lineRawText) style [] ∅.

(** ** The resolution driver: [getAssStyle] *)

(** What the program reads of the parsed document: the fields of a style
    definition, and whether an event is a dialogue line. *)
Record Style : Type := mkStyle {
  name : str;
  fontname : str;
  bold : bool;
  s_italic : bool
}.

Inductive Event : Type :=
| Dialogue (style text : str)
| OtherEvent (style text : str).

(** [{style.name: AssStyle(...) for style in subtitle.styles}]: a later
    definition of a name replaces an earlier one. *)
Definition style_registry (styles : list Style) : gmap str AssStyle :=
  foldl (fun d style =>
           <[name style :=
               mkAssStyle (stripFontname (lower (strip (fontname style))))
                          (if bold style then 700 else 400)
                          (s_italic style)]> d)
        ∅ styles.

(** [d[k]]. *)
Definition getitem (d : gmap str AssStyle) (k : str) : M AssStyle :=
  match d !! k with
  | Some v => ret v
  | None => raise KeyError
  end.

(** [try: body / except KeyError: handler]. *)
Definition try_except_KeyError {A} (body handler : M A) : M A :=
  match body with
  | (Raise KeyError, out) => let '(r, out') := handler in (r, out ++ out')
  | other => other
  end.

Definition unknown_style_message (style : str) (i : Z) (fileName : str) : str :=
  Fore_RED ++ lit "Error: unknown style " ++ quote ++ style ++ quote
    ++ lit " on line " ++ str_of_int (i + 1)
    ++ lit ". You need to correct the .ass file named "
    ++ quote ++ fileName ++ quote ++ Fore_WHITE.

(** [sys.exit(print(...))]. *)
Definition exit_with {A} (message : str) : M A :=
  let* _ := print message in raise SystemExit.

(** The loop over [enumerate(subtitle.events)] from index [i] on. *)
Fixpoint getAssStyle_loop (styles : gmap str AssStyle) (fileName : str)
    (events : list Event) (i : Z) (styleSet : gset AssStyle)
    : M (gset AssStyle) :=
  match events with
  | [] => ret styleSet
  | Dialogue line_style line_text :: rest =>
      let* styleSet :=
        try_except_KeyError
          (let* style := getitem styles line_style in
           let* found := parseLine line_text style in
           ret (styleSet ∪ found))
          (exit_with (unknown_style_message line_style i fileName)) in
      getAssStyle_loop styles fileName rest (i + 1) styleSet
  | OtherEvent _ _ :: rest =>
      getAssStyle_loop styles fileName rest (i + 1) styleSet
  end.

Definition getAssStyle (subtitle_styles : list Style)
    (subtitle_events : list Event) (fileName : str) : M (gset AssStyle) :=
  getAssStyle_loop (style_registry subtitle_styles) fileName
                   subtitle_events 0 ∅.

(** ** The font matcher: [searchFont] *)

(** A set of fonts is passed as the list of its members in the order the
    [for] loop meets them; Python leaves that order open. *)

(** The weight boost of one candidate: a copy of [fontI], heavier by 150. *)
Definition boosted (style : AssStyle) (fontI : Font) : bool :=
  (f_weight fontI <? weight style - 150) && (weight style <=? 850).

Definition boost (style : AssStyle) (fontI : Font) : Font :=
  if boosted style fontI
  then f_replace_weight fontI (f_weight fontI + 150)
  else fontI.

(** The variables of [searchFont]: the collection it was given and the
    list it builds. *)
Record frame : Type := Frame {
  v_fontCollection : list Font;
  v_fontMatch : list Font
}.

(** One turn of the [for] loop on the member [fontI]. *)
Definition searchFont_step (style : AssStyle) (fr : frame) (fontI : Font)
    : frame :=
  if str_eqb (f_fontName fontI) (fontName style) then
    let fontI := boost style fontI in
    Frame (v_fontCollection fr) (v_fontMatch fr ++ [fontI])
  else fr.

(** Tuples of three integers, compared as Python compares tuples. *)
Definition key : Type := Z * Z * Z.

Definition key_leb (k1 k2 : key) : bool :=
  let '(a1, b1, c1) := k1 in
  let '(a2, b2, c2) := k2 in
  (a1 <? a2) || ((a1 =? a2) && ((b1 <? b2) || ((b1 =? b2) && (c1 <=? c2)))).

(** [list.sort(key=...)], a stable sort: members with equal keys keep
    their order. *)
Fixpoint insert_by {A} (k : A -> key) (x : A) (l : list A) : list A :=
  match l with
  | [] => [x]
  | y :: l' => if key_leb (k x) (k y) then x :: l else y :: insert_by k x l'
  end.

Fixpoint sort_by {A} (k : A -> key) (l : list A) : list A :=
  match l with
  | [] => []
  | x :: l' => insert_by k x (sort_by k l')
  end.

Definition key_italic (style : AssStyle) (font : Font) : key :=
  (- Z.b2z (f_italic font), Z.abs (weight style - f_weight font), f_weight font).

Definition key_upright (style : AssStyle) (font : Font) : key :=
  (Z.b2z (f_italic font), Z.abs (weight style - f_weight font), f_weight font).

(** [searchFont] with its variables at the [return]. *)
Definition searchFont_run (fontCollection : list Font) (style : AssStyle)
    : frame :=
  let fr := foldl (searchFont_step style) (Frame fontCollection [])
                  fontCollection in
  if italic style
  then Frame (v_fontCollection fr) (sort_by (key_italic style) (v_fontMatch fr))
  else Frame (v_fontCollection fr) (sort_by (key_upright style) (v_fontMatch fr)).

Definition searchFont (fontCollection : list Font) (style : AssStyle)
    : list Font :=
  v_fontMatch (searchFont_run fontCollection style).

(** ** The resolution driver: [findUsedFont] *)

(** A [Set[Font]] holds one font for each key of [Font.__hash__] and
    [Font.__eq__]; [add] keeps the member that is already there. *)
Abbreviation FontSet := (gmap (str * bool * Z) Font).

Definition FontSet_add (f : Font) (s : FontSet) : FontSet :=
  match s !! Font_key f with
  | Some _ => s
  | None => <[Font_key f := f]> s
  end.

Definition FontSet_mem (f : Font) (s : FontSet) : Prop :=
  is_Some (s !! Font_key f).

(** The loop of [findUsedFont] over the styles, in the order it meets
    them, with its two sets. *)
Fixpoint findUsedFont_loop (fontCollection : list Font)
    (styleCollection : list AssStyle)
    (fontsMissing : gset str) (fontsFound : FontSet) : gset str * FontSet :=
  match styleCollection with
  | [] => (fontsMissing, fontsFound)
  | style :: rest =>
      let fontMatch := searchFont fontCollection style in
      match fontMatch with
      | best :: _ =>
          findUsedFont_loop fontCollection rest fontsMissing
                            (FontSet_add best fontsFound)
      | [] =>
          findUsedFont_loop fontCollection rest
                            (fontsMissing ∪ {[ fontName style ]}) fontsFound
      end
  end.

Definition Fore_LIGHTGREEN_EX : str := esc :: lit "[92m".
Definition newline : str := [ascii_of_nat 10].

(** ["\n".join(l)]. *)
Fixpoint join_lines (l : list str) : str :=
  match l with
  | [] => []
  | [x] => x
  | x :: l' => x ++ newline ++ join_lines l'
  end.

Definition findUsedFont (fontCollection : list Font)
    (styleCollection : list AssStyle) : M FontSet :=
  let '(fontsMissing, fontsFound) :=
    findUsedFont_loop fontCollection styleCollection ∅ ∅ in
  let* _ :=
    if (0 <? size fontsMissing)%nat then
      let* _ := print (Fore_RED ++ newline
                  ++ lit "Error: Some fonts were not found. Are they installed? :") in
      let* _ := print (join_lines (elements fontsMissing)) in
      print (Fore_WHITE ++ newline)
    else
      print (Fore_LIGHTGREEN_EX ++ lit "All fonts found" ++ Fore_WHITE) in
  ret fontsFound.

(** ** Files: [isMkv] and [copyFont] *)

(** The signature of a Matroska file. *)
Definition mkv_signature : str :=
  [ascii_of_nat 26; ascii_of_nat 69; ascii_of_nat 223; ascii_of_nat 163].

(** [isMkv] on the bytes of the file: [f.read(4)] is the first four bytes,
    or all of them when the file is shorter. *)
Definition isMkv (content : str) : bool :=
  str_eqb (firstn 4 content) mkv_signature.

(** [copyFont]: the copies it asks [shutil.copy] for, source and
    destination, in the order of the loop. *)
Definition copyFont (fontCollection : list Font) (outputDirectory : str)
    : list (str * str) :=
  map (fun font => (fontPath font, outputDirectory)) fontCollection.

(** ** Reading the fonts: [createFont] and [initializeFontCollection] *)

(** What [createFont] reads of a font that [ttLib.TTFont] has opened: the
    records of the name table, each with what [toStr()] gives ([None] when
    it raises [UnicodeDecodeError]) and what decoding its bytes with
    [errors='ignore'] gives; and the OS/2 table, whose reading gives the
    two fields, raises [struct.error], or raises something else. *)
Record NameRecord : Type := mkNameRecord {
  nameID : Z;
  toStr : option str;
  string_decode_ignore : str
}.

Inductive OS2_table : Type :=
| OS2 (fsSelection usWeightClass : Z)
| OS2_struct_error
| OS2_raises (e : exn).

Record TTFont : Type := mkTTFont {
  names : list NameRecord;
  OS2_of : OS2_table
}.

(** The loop that fills [details]. *)
Definition name_details (records : list NameRecord) : gmap Z str :=
  foldl (fun details x =>
           match toStr x with
           | Some text => <[nameID x := text]> details
           | None => <[nameID x := string_decode_ignore x]> details
           end)
        ∅ records.

Definition getitem_Z (d : gmap Z str) (k : Z) : M str :=
  match d !! k with
  | Some v => ret v
  | None => raise KeyError
  end.

Definition no_OS2_warning (fontPath : str) : str :=
  Fore_LIGHTRED_EX ++ lit "Warning: The file " ++ quote ++ fontPath ++ quote
    ++ lit " does not have an OS/2 table. This can lead to minor errors."
    ++ Fore_WHITE.

Definition createFont (fontPath : str) (font : TTFont) : M Font :=
  let details := name_details (names font) in
  let* name1 := getitem_Z details 1 in
  let fontName := lower (strip name1) in
  let* italic_weight :=
    match OS2_of font with
    | OS2 fsSelection usWeightClass =>
        ret (0 <? Z.land fsSelection 1, usWeightClass)
    | OS2_struct_error =>
        let* _ := print (no_OS2_warning fontPath) in
        ret (false, 400)
    | OS2_raises e => raise e
    end in
  let '(isItalic, weight) := italic_weight in
  let weight := if weight <=? 9 then weight * 100 else weight in
  ret (mkFont fontPath fontName weight isItalic).

(** The loop of [initializeFontCollection] over [fontsPath]; [TTFont_open]
    is [ttLib.TTFont], which may raise. *)
Fixpoint initializeFontCollection_loop (TTFont_open : str -> M TTFont)
    (fontsPath : list str) (fontCollection : FontSet) : M FontSet :=
  match fontsPath with
  | [] => ret fontCollection
  | fontPath :: rest =>
      let* font := TTFont_open fontPath in
      let* created := createFont fontPath font in
      initializeFontCollection_loop TTFont_open rest
                                    (FontSet_add created fontCollection)
  end.

(** [findSystemFonts] is [font_manager.findSystemFonts], on [None] for the
    installed fonts and on a directory. *)
Definition initializeFontCollection
    (findSystemFonts : option str -> list str)
    (TTFont_open : str -> M TTFont)
    (additionalFontsDirectoryPath additionalFontsFilePath : list str)
    : M FontSet :=
  let fontsPath :=
    foldl (fun fontsPath fontPath =>
             fontsPath ++ findSystemFonts (Some fontPath))
          (findSystemFonts None ++ additionalFontsFilePath)
          additionalFontsDirectoryPath in
  initializeFontCollection_loop TTFont_open fontsPath ∅.

(** * Definitions used in the statements *)

(** The order of the sort keys, and of the members they are computed from. *)
Definition key_le (k1 k2 : key) : Prop := key_leb k1 k2 = true.

Definition by_key {A} (k : A -> key) (x y : A) : Prop := key_le (k x) (k y).

(** The test of [searchFont] on a member of the collection. *)
Definition same_family (style : AssStyle) (fontI : Font) : bool :=
  str_eqb (f_fontName fontI) (fontName style).

(** *** What the three tag patterns match, read off the patterns *)

(** The length of the longest prefix of [s] within the class [p]. *)
Fixpoint span (p : ascii -> bool) (s : str) : nat :=
  match s with
  | c :: s' => if p c then S (span p s') else O
  | [] => O
  end.

(** [a] starts with [s]. *)
Fixpoint starts_with (s a : str) : bool :=
  match s, a with
  | [], _ => true
  | c :: s', x :: a' => is_chr c x && starts_with s' a'
  | _ :: _, [] => false
  end.

(** The length of [s] and the digits after it at the head of [a], when [a]
    starts with [s] and a digit follows. *)
Definition digits_after (s a : str) : option nat :=
  if starts_with s a && (1 <=? span is_digit (skipn (length s) a))%nat
  then Some (length s + span is_digit (skipn (length s) a))%nat
  else None.

(** The length of the match of [TAG_NUM_PATTERN x] at the head of [a]. *)
Definition num_tag_len (x : ascii) (a : str) : option nat :=
  match digits_after [bs; x] a with
  | Some n => Some n
  | None =>
      match digits_after [bs; x; "+"%char] a with
      | Some n => Some n
      | None => digits_after [bs; x; "-"%char] a
      end
  end.

(** The length of the match of [INT_PATTERN] at the head of [a]. *)
Definition int_len (a : str) : option nat :=
  match a with
  | c :: a' =>
      if (is_chr "+" c || is_chr "-" c) && (1 <=? span is_digit a')%nat
      then Some (S (span is_digit a'))
      else if (1 <=? span is_digit a)%nat then Some (span is_digit a)
      else None
  | [] => None
  end.

(** The length of the match of [TAG_R_PATTERN] at the head of [a]. *)
Definition r_len (a : str) : option nat :=
  if starts_with [bs; "r"%char] a then Some 2%nat else None.

(** The scan of a pattern whose match at a position is given by [f], never
    empty and without groups: the matches as offset, length and text. *)
Fixpoint scan_by (f : str -> option nat) (pos : nat) (a : str) (skip : nat)
    : list (nat * nat * str) :=
  match skip with
  | S k =>
      match a with
      | [] => []
      | _ :: a' => scan_by f (S pos) a' k
      end
  | O =>
      match f a with
      | Some n =>
          (pos, n, firstn n a)
            :: match a with
               | [] => []
               | _ :: a' => scan_by f (S pos) a' (pred n)
               end
      | None =>
          match a with
          | [] => []
          | _ :: a' => scan_by f (S pos) a' O
          end
      end
  end.

(** The texts of the matches. *)
Definition texts_by (f : str -> option nat) (a : str) (skip : nat) : list str :=
  map snd (scan_by f O a skip).

(** The text after the last match, [cur] when there is none. *)
Fixpoint tail_by (f : str -> option nat) (a : str) (skip : nat) (cur : str)
    : str :=
  match skip with
  | S k =>
      match a with
      | [] => cur
      | _ :: a' => tail_by f a' k cur
      end
  | O =>
      match f a with
      | Some n =>
          match a with
          | [] => skipn n a
          | _ :: a' => tail_by f a' (pred n) (skipn n a)
          end
      | None =>
          match a with
          | [] => cur
          | _ :: a' => tail_by f a' O cur
          end
      end
  end.

(** [f] describes the matches of [r]. *)
Definition matches_by (r : regex) (f : str -> option nat) : Prop :=
  (forall b a adv,
      match_at r b a adv = option_map (fun n => (n, [])) (f a))
  /\ (forall a n, f a = Some n -> (0 < n <= length a)%nat).

(** The texts [int] reads: digits, bare or behind one sign. *)
Definition all_digits (d : str) : bool := nonempty d && forallb is_digit d.

Definition int_literal (arg : str) : bool :=
  match arg with
  | c :: d =>
      if is_chr "+" c || is_chr "-" c then all_digits d else all_digits arg
  | [] => false
  end.

(** The letters of the bold and of the italic tag. *)
Definition tag_letter (x : ascii) : Prop := x = "b"%char \/ x = "i"%char.

(** The text neither goes on with a digit nor holds a tag [\x<number>]. *)
Definition no_digit_ahead (post : str) : Prop :=
  match post with
  | c :: _ => is_digit c = false
  | [] => True
  end.

Definition no_num_tag (x : ascii) (post : str) : Prop :=
  findall (TAG_NUM_PATTERN x) post = [] /\ no_digit_ahead post.

(** The tag string [parseLine] has built after the pairs [pairs]: every
    block followed by the separator. *)
Definition cumulative_tags (pairs : list (str * str)) : str :=
  concat (map (fun p => p.1 ++ [bs; "}"%char]) pairs).

(** A weight of the scale: a hundred from 100 to 900. *)
Definition hundred (w : Z) : Prop := exists k, 1 <= k <= 9 /\ w = 100 * k.

(** The key [searchFont] sorts by for the style [style]. *)
Definition sort_key (style : AssStyle) : Font -> key :=
  if italic style then key_italic style else key_upright style.

Definition key_eqb (k1 k2 : key) : bool :=
  let '(a1, b1, c1) := k1 in
  let '(a2, b2, c2) := k2 in
  (a1 =? a2) && (b1 =? b2) && (c1 =? c2).

(** The entry [getAssStyle] makes of a style definition. *)
Definition registry_entry (style : Style) : AssStyle :=
  mkAssStyle (stripFontname (lower (strip (fontname style))))
             (if bold style then 700 else 400)
             (s_italic style).

(** The event is no dialogue line, or its style is in the registry. *)
Definition known (styles : gmap str AssStyle) (e : Event) : Prop :=
  match e with
  | Dialogue line_style _ => is_Some (styles !! line_style)
  | OtherEvent _ _ => True
  end.

(** [str.rstrip()]. *)
Definition rstrip (s : str) : str := rev (lstrip (rev s)).

(** Fonts and styles used to run the functions on. *)
Definition arial : str := lit "arial".
Definition arial_regular_500 : Font := mkFont (lit "arial500.ttf") arial 500 false.
Definition arial_bold : Font := mkFont (lit "arialbd.ttf") arial 700 false.
Definition arial_italic : Font := mkFont (lit "ariali.ttf") arial 400 true.
Definition Default : AssStyle := mkAssStyle arial 400 false.
Definition Default_italic : AssStyle := mkAssStyle arial 400 true.
Definition bold_upright : AssStyle := mkAssStyle arial 700 false.
Definition bold_italic : AssStyle := mkAssStyle arial 700 true.

(** * Properties *)

(** ** The sort *)

Section Sorting.
Context {A : Type} (k : A -> key).
Local Abbreviation by_key := (by_key k).

Lemma key_leb_spec (a1 b1 c1 a2 b2 c2 : Z) :
  key_leb (a1, b1, c1) (a2, b2, c2) = true
  <-> a1 < a2 \/ (a1 = a2 /\ (b1 < b2 \/ (b1 = b2 /\ c1 <= c2))).
Proof.
  unfold key_leb.
  rewrite orb_true_iff, andb_true_iff, orb_true_iff, andb_true_iff.
  rewrite !Z.ltb_lt, !Z.eqb_eq, Z.leb_le. reflexivity.
Qed.

Lemma key_leb_total (k1 k2 : key) : key_leb k1 k2 = true \/ key_leb k2 k1 = true.
Proof.
  destruct k1 as [[a1 b1] c1], k2 as [[a2 b2] c2].
  rewrite !key_leb_spec. lia.
Qed.

Lemma key_leb_trans (k1 k2 k3 : key) :
  key_leb k1 k2 = true -> key_leb k2 k3 = true -> key_leb k1 k3 = true.
Proof.
  destruct k1 as [[a1 b1] c1], k2 as [[a2 b2] c2], k3 as [[a3 b3] c3].
  rewrite !key_leb_spec. lia.
Qed.

Lemma insert_by_perm (x : A) (l : list A) :
  Permutation (insert_by k x l) (x :: l).
Proof.
  induction l as [|y l IH]; simpl; [reflexivity|].
  destruct (key_leb (k x) (k y)); [reflexivity|].
  rewrite IH. apply perm_swap.
Qed.

Lemma sort_by_perm (l : list A) : Permutation (sort_by k l) l.
Proof.
  induction l as [|x l IH]; simpl; [reflexivity|].
  rewrite insert_by_perm. now apply perm_skip.
Qed.

Lemma insert_by_sorted (x : A) (l : list A) :
  StronglySorted by_key l -> StronglySorted by_key (insert_by k x l).
Proof.
  induction 1 as [|y l Hs IH Hall]; simpl.
  - constructor; constructor.
  - destruct (key_leb (k x) (k y)) eqn:Hxy.
    + constructor; [now constructor|].
      constructor; [exact Hxy|].
      eapply List.Forall_impl; [|exact Hall].
      intros z Hz. eapply key_leb_trans; eauto.
    + constructor; [exact IH|].
      assert (Hyx : by_key y x).
      { destruct (key_leb_total (k x) (k y)) as [H|H]; [congruence|exact H]. }
      eapply Permutation_Forall; [symmetry; apply insert_by_perm|].
      now constructor.
Qed.

Lemma sort_by_sorted (l : list A) : StronglySorted by_key (sort_by k l).
Proof.
  induction l as [|x l IH]; simpl; [constructor|].
  now apply insert_by_sorted.
Qed.

(** In a sorted list an earlier member never has the larger key. *)
Lemma sorted_earlier (l1 l2 l3 : list A) (a b : A) :
  StronglySorted by_key (l1 ++ a :: l2 ++ b :: l3) -> by_key a b.
Proof.
  induction l1 as [|x l1 IH]; simpl; intros Hs.
  - apply StronglySorted_inv in Hs as [_ Hall].
    rewrite List.Forall_forall in Hall. apply Hall.
    apply in_or_app. right. now left.
  - apply StronglySorted_inv in Hs as [Hs _]. auto.
Qed.
End Sorting.

(** ** The candidates of [searchFont] *)

Lemma str_eqb_eq (s1 s2 : str) : str_eqb s1 s2 = true <-> s1 = s2.
Proof.
  revert s2. induction s1 as [|c1 s1 IH]; intros [|c2 s2]; simpl;
    try (split; [discriminate|discriminate]); [tauto|].
  rewrite andb_true_iff, Ascii.eqb_eq, IH.
  split; [intros [-> ->]; reflexivity|intros [= -> ->]; auto].
Qed.

Lemma str_eqb_refl (s : str) : str_eqb s s = true.
Proof. now apply str_eqb_eq. Qed.

Lemma searchFont_loop_spec (style : AssStyle) (l : list Font) (fr : frame) :
  foldl (searchFont_step style) fr l
  = Frame (v_fontCollection fr)
          (v_fontMatch fr ++ map (boost style) (List.filter (same_family style) l)).
Proof.
  revert fr. induction l as [|f l IH]; intros fr; simpl.
  - rewrite app_nil_r. now destruct fr.
  - rewrite IH. unfold searchFont_step, same_family.
    destruct (str_eqb (f_fontName f) (fontName style)); simpl.
    + now rewrite <- app_assoc.
    + reflexivity.
Qed.

Lemma searchFont_run_pool (pool : list Font) (style : AssStyle) :
  v_fontCollection (searchFont_run pool style) = pool.
Proof.
  unfold searchFont_run. rewrite searchFont_loop_spec.
  now destruct (italic style).
Qed.

Lemma searchFont_perm (pool : list Font) (style : AssStyle) :
  Permutation (searchFont pool style)
              (map (boost style) (List.filter (same_family style) pool)).
Proof.
  unfold searchFont, searchFont_run. rewrite searchFont_loop_spec. simpl.
  destruct (italic style); simpl; apply sort_by_perm.
Qed.

Lemma searchFont_members (pool : list Font) (style : AssStyle) (f' : Font) :
  In f' (searchFont pool style)
  <-> exists f, In f pool /\ f_fontName f = fontName style /\ f' = boost style f.
Proof.
  split.
  - intros Hin.
    eapply Permutation_in in Hin; [|apply searchFont_perm].
    apply in_map_iff in Hin as (f & <- & Hf).
    apply filter_In in Hf as [Hf Hfam].
    exists f. repeat split; auto.
    unfold same_family in Hfam. now apply str_eqb_eq in Hfam.
  - intros (f & Hf & Hfam & ->).
    eapply Permutation_in; [symmetry; apply searchFont_perm|].
    apply in_map. apply filter_In. split; [exact Hf|].
    unfold same_family. now apply str_eqb_eq.
Qed.

Lemma searchFont_nil (pool : list Font) (style : AssStyle) :
  searchFont pool style = []
  <-> forall f, In f pool -> f_fontName f <> fontName style.
Proof.
  split.
  - intros Hnil f Hf Hfam.
    assert (Hin : In (boost style f) (searchFont pool style)).
    { apply searchFont_members. eauto. }
    rewrite Hnil in Hin. destruct Hin.
  - intros Hno. destruct (searchFont pool style) as [|f' l] eqn:E; [reflexivity|].
    assert (Hin : In f' (searchFont pool style)) by (rewrite E; now left).
    apply searchFont_members in Hin as (f & Hf & Hfam & _).
    now destruct (Hno f Hf).
Qed.

Lemma boost_fields (style : AssStyle) (f : Font) :
  fontPath (boost style f) = fontPath f
  /\ f_fontName (boost style f) = f_fontName f
  /\ f_italic (boost style f) = f_italic f
  /\ f_weight (boost style f)
     = if boosted style f then f_weight f + 150 else f_weight f.
Proof. unfold boost. destruct (boosted style f); simpl; auto. Qed.

Lemma boosted_iff (style : AssStyle) (f : Font) :
  boosted style f = true
  <-> f_weight f < weight style - 150 /\ weight style <= 850.
Proof.
  unfold boosted. rewrite andb_true_iff, Z.ltb_lt, Z.leb_le. reflexivity.
Qed.

(** ** The two sets of [findUsedFont] *)

Lemma FontSet_add_mem (f : Font) (F : FontSet) (k : str * bool * Z) :
  is_Some (FontSet_add f F !! k) <-> is_Some (F !! k) \/ k = Font_key f.
Proof.
  unfold FontSet_add. destruct (F !! Font_key f) eqn:E.
  - split; [auto|]. intros [H| ->]; [exact H|]. rewrite E. eauto.
  - destruct (decide (k = Font_key f)) as [->|Hne].
    + rewrite lookup_insert_eq. split; eauto.
    + rewrite lookup_insert_ne by congruence. split; [auto|]. now intros [H|H].
Qed.

Lemma FontSet_add_val (f g : Font) (F : FontSet) (k : str * bool * Z) :
  FontSet_add f F !! k = Some g -> F !! k = Some g \/ g = f.
Proof.
  unfold FontSet_add. destruct (F !! Font_key f) eqn:E; [auto|].
  destruct (decide (k = Font_key f)) as [->|Hne].
  - rewrite lookup_insert_eq. intros [= ->]. now right.
  - rewrite lookup_insert_ne by congruence. auto.
Qed.

Section FindUsedFont.
Variable pool : list Font.

Lemma loop_missing (styles : list AssStyle) (M : gset str) (F : FontSet) (x : str) :
  x ∈ (findUsedFont_loop pool styles M F).1
  <-> x ∈ M \/ exists s, In s styles /\ searchFont pool s = [] /\ fontName s = x.
Proof.
  revert M F. induction styles as [|s styles IH]; intros M F; simpl.
  - split; [auto|]. intros [H|(s & [] & _)]. exact H.
  - destruct (searchFont pool s) as [|best rest] eqn:E; rewrite IH.
    + rewrite elem_of_union, elem_of_singleton. split.
      * intros [[H| ->]|(s' & Hs' & Hn & Hx)]; [auto| |].
        -- right. exists s. auto.
        -- right. exists s'. auto.
      * intros [H|(s' & [<-|Hs'] & Hn & Hx)]; [auto| |].
        -- left. right. now symmetry.
        -- right. exists s'. auto.
    + split.
      * intros [H|(s' & Hs' & Hn & Hx)]; [auto|]. right. exists s'. auto.
      * intros [H|(s' & [<-|Hs'] & Hn & Hx)]; [auto|congruence|].
        right. exists s'. auto.
Qed.

Lemma loop_found (styles : list AssStyle) (M : gset str) (F : FontSet)
    (k : str * bool * Z) :
  is_Some ((findUsedFont_loop pool styles M F).2 !! k)
  <-> is_Some (F !! k)
      \/ exists s best rest, In s styles /\ searchFont pool s = best :: rest
                             /\ Font_key best = k.
Proof.
  revert M F. induction styles as [|s styles IH]; intros M F; simpl.
  - split; [auto|]. intros [H|(s & ? & ? & [] & _)]. exact H.
  - destruct (searchFont pool s) as [|best rest] eqn:E; rewrite IH.
    + split.
      * intros [H|(s' & b & r & Hs' & Hn & Hx)]; [auto|].
        right. exists s', b, r. auto.
      * intros [H|(s' & b & r & [<-|Hs'] & Hn & Hx)]; [auto|congruence|].
        right. exists s', b, r. auto.
    + rewrite FontSet_add_mem. split.
      * intros [[H| ->]|(s' & b & r & Hs' & Hn & Hx)]; [auto| |].
        -- right. exists s, best, rest. auto.
        -- right. exists s', b, r. auto.
      * intros [H|(s' & b & r & [<-|Hs'] & Hn & Hx)]; [auto| |].
        -- left. right. rewrite E in Hn. now injection Hn as -> _.
        -- right. exists s', b, r. auto.
Qed.

Lemma loop_found_val (styles : list AssStyle) (M : gset str) (F : FontSet)
    (k : str * bool * Z) (f : Font) :
  (findUsedFont_loop pool styles M F).2 !! k = Some f ->
  F !! k = Some f
  \/ exists s rest, In s styles /\ searchFont pool s = f :: rest.
Proof.
  revert M F. induction styles as [|s styles IH]; intros M F; simpl; [auto|].
  destruct (searchFont pool s) as [|best rest] eqn:E; intros H;
    apply IH in H as [H|(s' & r & Hs' & Hn)].
  - auto.
  - right. exists s', r. auto.
  - apply FontSet_add_val in H as [H| ->]; [auto|].
    right. exists s, rest. auto.
  - right. exists s', r. auto.
Qed.
End FindUsedFont.

Lemma searchFont_family (pool : list Font) (s : AssStyle) (f : Font) :
  In f (searchFont pool s) -> f_fontName f = fontName s.
Proof.
  intros H. apply searchFont_members in H as (g & _ & Hfam & ->).
  destruct (boost_fields s g) as (_ & -> & _). exact Hfam.
Qed.

Lemma searchFont_nil_family (pool : list Font) (s s' : AssStyle) :
  fontName s = fontName s' -> searchFont pool s = [] -> searchFont pool s' = [].
Proof.
  intros Hfam H. apply searchFont_nil. rewrite <- Hfam. now apply searchFont_nil.
Qed.

(** ** The matcher on the patterns of the tags *)

Lemma rep_greedy_nil (p : ascii -> bool) (least : nat) (b a : str) (g : caps) :
  (span p a < least)%nat -> rep true p least b a g = [].
Proof.
  revert least b. induction a as [|c a IH]; intros least b H; simpl in *.
  - destruct least; [lia|reflexivity].
  - destruct (p c).
    + rewrite IH by lia. destruct least; [lia|reflexivity].
    + destruct least; [lia|reflexivity].
Qed.

Lemma rep_greedy_head (p : ascii -> bool) (least : nat) (b a : str) (g : caps) :
  (least <= span p a)%nat ->
  exists tl,
    rep true p least b a g
    = Cursor (rev (firstn (span p a) a) ++ b) (skipn (span p a) a) g :: tl.
Proof.
  revert least b. induction a as [|c a IH]; intros least b H; simpl in *.
  - assert (least = O) by lia. subst. eauto.
  - destruct (p c).
    + destruct (IH (pred least) (c :: b)) as [tl ->]; [lia|].
      simpl. rewrite <- app_assoc. simpl. eauto.
    + assert (least = O) by lia. subst. simpl. eauto.
Qed.

Lemma run_Lit (s b a : str) (g : caps) :
  run (Lit s) (Cursor b a g)
  = if starts_with s a
    then [Cursor (rev s ++ b) (skipn (length s) a) g] else [].
Proof.
  revert b a. induction s as [|c s IH]; intros b a; [reflexivity|].
  destruct s as [|c' s].
  - simpl. destruct a as [|x a]; [reflexivity|]. simpl.
    rewrite andb_true_r. destruct (is_chr c x) eqn:E; [|reflexivity].
    apply Ascii.eqb_eq in E as ->. reflexivity.
  - change (Lit (c :: c' :: s)) with (Seq (Cls (is_chr c)) (Lit (c' :: s))).
    cbn [run after before groups]. destruct a as [|x a]; [reflexivity|].
    change (starts_with (c :: c' :: s) (x :: a))
      with (is_chr c x && starts_with (c' :: s) a).
    destruct (is_chr c x) eqn:E; [|reflexivity].
    apply Ascii.eqb_eq in E as ->.
    cbn [flat_map]. rewrite IH, app_nil_r. cbn [andb].
    destruct (starts_with (c' :: s) a); [|reflexivity].
    cbn [rev length skipn]. now rewrite <- !app_assoc.
Qed.

Lemma run_Lit_then (s b a : str) (g : caps) (r : regex) :
  run (Seq (Lit s) r) (Cursor b a g)
  = if starts_with s a
    then run r (Cursor (rev s ++ b) (skipn (length s) a) g) else [].
Proof.
  cbn [run]. rewrite run_Lit. destruct (starts_with s a); [|reflexivity].
  cbn [flat_map]. apply app_nil_r.
Qed.

Lemma match_at_head (r : regex) (b a : str) (adv : bool) (c : cursor)
    (tl : list cursor) :
  run r (Cursor b a []) = c :: tl ->
  consumed b c <> O ->
  match_at r b a adv = Some (consumed b c, groups c).
Proof.
  intros Hrun Hn. unfold match_at. rewrite Hrun. cbn [List.filter].
  destruct (consumed b c) eqn:E; [congruence|].
  cbn. rewrite orb_true_r. now rewrite E.
Qed.

Lemma match_at_none (r : regex) (b a : str) (adv : bool) :
  run r (Cursor b a []) = [] -> match_at r b a adv = None.
Proof. intros Hrun. unfold match_at. now rewrite Hrun. Qed.

Lemma span_le (p : ascii -> bool) (s : str) : (span p s <= length s)%nat.
Proof.
  induction s as [|c s IH]; simpl; [lia|]. destruct (p c); simpl; lia.
Qed.

Lemma starts_with_length (s a : str) :
  starts_with s a = true -> (length s <= length a)%nat.
Proof.
  revert a. induction s as [|c s IH]; intros a; simpl; [lia|].
  destruct a as [|x a]; [discriminate|].
  rewrite andb_true_iff. intros [_ H]. apply IH in H. simpl. lia.
Qed.

Lemma starts_with_firstn (s a : str) :
  starts_with s a = true -> firstn (length s) a = s.
Proof.
  revert a. induction s as [|c s IH]; intros a; simpl; [reflexivity|].
  destruct a as [|x a]; [discriminate|].
  rewrite andb_true_iff. intros [Hc H]. apply Ascii.eqb_eq in Hc as ->.
  simpl. now rewrite IH.
Qed.

Lemma starts_with_split (s a : str) :
  starts_with s a = true -> a = s ++ skipn (length s) a.
Proof.
  intros H. pose proof (firstn_skipn (length s) a) as E.
  rewrite (starts_with_firstn s a H) in E. now symmetry.
Qed.

Lemma consumed_app (u b a : str) (g : caps) :
  consumed b (Cursor (u ++ b) a g) = length u.
Proof. unfold consumed. simpl. rewrite length_app. lia. Qed.

(** The run of one alternative of a number tag: a literal, then digits. *)
Lemma run_digits_after (s b a : str) :
  match digits_after s a with
  | Some n =>
      exists tl,
        run (Seq (Lit s) (Rep true 1 is_digit)) (Cursor b a [])
        = Cursor (rev (firstn n a) ++ b) (skipn n a) [] :: tl
  | None => run (Seq (Lit s) (Rep true 1 is_digit)) (Cursor b a []) = []
  end.
Proof.
  unfold digits_after. rewrite run_Lit_then.
  destruct (starts_with s a) eqn:Hs; cbn [andb]; [|reflexivity].
  cbn [run before after groups].
  destruct (Nat.leb_spec 1 (span is_digit (skipn (length s) a))) as [H|H].
  - destruct (rep_greedy_head is_digit 1 (rev s ++ b) (skipn (length s) a) [] H)
      as [tl ->].
    exists tl. pose proof (starts_with_split s a Hs) as Ha.
    set (rest := skipn (length s) a) in *. clearbody rest. subst a.
    rewrite firstn_app_2, rev_app_distr, <- app_assoc.
    rewrite skipn_app.
    replace (skipn (length s + span is_digit rest) s) with (@nil ascii)
      by (symmetry; apply skipn_all2; lia).
    replace (length s + span is_digit rest - length s)%nat
      with (span is_digit rest) by lia.
    reflexivity.
  - apply rep_greedy_nil. lia.
Qed.

Lemma digits_after_bounds (s a : str) (n : nat) :
  digits_after s a = Some n -> (length s < n <= length a)%nat.
Proof.
  unfold digits_after.
  destruct (starts_with s a) eqn:Hs; cbn [andb]; [|discriminate].
  destruct (Nat.leb_spec 1 (span is_digit (skipn (length s) a))); [|discriminate].
  intros [= <-]. pose proof (span_le is_digit (skipn (length s) a)).
  rewrite length_skipn in H0. apply starts_with_length in Hs. lia.
Qed.

Lemma num_tag_len_bounds (x : ascii) (a : str) (n : nat) :
  num_tag_len x a = Some n -> (2 < n <= length a)%nat.
Proof.
  unfold num_tag_len.
  destruct (digits_after [bs; x] a) eqn:E1.
  { intros [= <-]. apply digits_after_bounds in E1. simpl in E1. lia. }
  destruct (digits_after [bs; x; "+"%char] a) eqn:E2.
  { intros [= <-]. apply digits_after_bounds in E2. simpl in E2. lia. }
  intros E3. apply digits_after_bounds in E3. simpl in E3. lia.
Qed.

Lemma matches_by_num (x : ascii) :
  matches_by (TAG_NUM_PATTERN x) (num_tag_len x).
Proof.
  split.
  - intros b a adv. unfold TAG_NUM_PATTERN, num_tag_len.
    pose proof (run_digits_after [bs; x] b a) as H1.
    pose proof (run_digits_after [bs; x; "+"%char] b a) as H2.
    pose proof (run_digits_after [bs; x; "-"%char] b a) as H3.
    destruct (digits_after [bs; x] a) as [n|] eqn:E1.
    { destruct H1 as [tl H1].
      erewrite match_at_head;
        [|cbn [run] in *; rewrite H1; reflexivity|];
        rewrite consumed_app, length_rev, firstn_length_le;
        try reflexivity; apply digits_after_bounds in E1; simpl in E1; lia. }
    destruct (digits_after [bs; x; "+"%char] a) as [n|] eqn:E2.
    { destruct H2 as [tl H2].
      erewrite match_at_head;
        [|cbn [run] in *; rewrite H1, H2; reflexivity|];
        rewrite consumed_app, length_rev, firstn_length_le;
        try reflexivity; apply digits_after_bounds in E2; simpl in E2; lia. }
    destruct (digits_after [bs; x; "-"%char] a) as [n|] eqn:E3.
    { destruct H3 as [tl H3].
      erewrite match_at_head;
        [|cbn [run] in *; rewrite H1, H2, H3; reflexivity|];
        rewrite consumed_app, length_rev, firstn_length_le;
        try reflexivity; apply digits_after_bounds in E3; simpl in E3; lia. }
    apply match_at_none. cbn [run] in *. now rewrite H1, H2, H3.
  - intros a n H. apply num_tag_len_bounds in H. lia.
Qed.

Lemma sign_not_digit (c : ascii) :
  is_chr "+" c || is_chr "-" c = true -> is_digit c = false.
Proof.
  rewrite orb_true_iff. unfold is_chr.
  intros [H|H]; apply Ascii.eqb_eq in H; subst; reflexivity.
Qed.

Lemma int_len_bounds (a : str) (n : nat) :
  int_len a = Some n -> (0 < n <= length a)%nat.
Proof.
  destruct a as [|c a]; [discriminate|]. cbn [int_len].
  destruct ((is_chr "+" c || is_chr "-" c) && (1 <=? span is_digit a)%nat).
  - intros [= <-]. pose proof (span_le is_digit a). simpl. lia.
  - destruct (Nat.leb_spec 1 (span is_digit (c :: a))); [|discriminate].
    intros E. assert (n = span is_digit (c :: a)) by congruence. subst n.
    split; [lia|apply span_le].
Qed.

Lemma matches_by_int : matches_by INT_PATTERN int_len.
Proof.
  split; [|apply int_len_bounds].
  intros b a adv. unfold INT_PATTERN.
  destruct a as [|c a].
  { apply match_at_none. reflexivity. }
  cbn [int_len]. destruct (is_chr "+" c || is_chr "-" c) eqn:Hsign; cbn [andb].
  - assert (Hrun : run (Seq (Opt (Cls (fun c => is_chr "+" c || is_chr "-" c)))
                            (Rep true 1 is_digit)) (Cursor b (c :: a) [])
                   = rep true is_digit 1 (c :: b) a []
                     ++ rep true is_digit 1 b (c :: a) []).
    { cbn [run after before groups]. rewrite Hsign. cbn [app flat_map run
        after before groups]. now rewrite app_nil_r. }
    assert (Hnil : rep true is_digit 1 b (c :: a) [] = []).
    { apply rep_greedy_nil. simpl. rewrite (sign_not_digit c Hsign). lia. }
    destruct (Nat.leb_spec 1 (span is_digit a)) as [H|H].
    + destruct (rep_greedy_head is_digit 1 (c :: b) a [] H) as [tl Htl].
      erewrite match_at_head; [|rewrite Hrun, Htl; reflexivity|];
        change (rev (firstn (span is_digit a) a) ++ c :: b)
          with (rev (firstn (span is_digit a) a) ++ [c] ++ b);
        rewrite app_assoc, consumed_app, length_app, length_rev,
          firstn_length_le by apply span_le; simpl; [f_equal; f_equal|]; lia.
    + rewrite (proj2 (Nat.leb_gt 1 (span is_digit (c :: a))))
        by (simpl; rewrite (sign_not_digit c Hsign); lia).
      apply match_at_none. rewrite Hrun, Hnil, app_nil_r.
      apply rep_greedy_nil. lia.
  - assert (Hrun : run (Seq (Opt (Cls (fun c => is_chr "+" c || is_chr "-" c)))
                            (Rep true 1 is_digit)) (Cursor b (c :: a) [])
                   = rep true is_digit 1 b (c :: a) []).
    { cbn [run after before groups]. rewrite Hsign. cbn [app flat_map run
        after before groups]. now rewrite app_nil_r. }
    destruct (Nat.leb_spec 1 (span is_digit (c :: a))) as [H|H].
    + destruct (rep_greedy_head is_digit 1 b (c :: a) [] H) as [tl Htl].
      erewrite match_at_head; [|rewrite Hrun, Htl; reflexivity|];
        rewrite consumed_app, length_rev, firstn_length_le by apply span_le;
        [reflexivity|lia].
    + apply match_at_none. rewrite Hrun. apply rep_greedy_nil. lia.
Qed.

Lemma matches_by_r : matches_by TAG_R_PATTERN r_len.
Proof.
  split.
  - intros b a adv. unfold TAG_R_PATTERN, r_len.
    pose proof (run_Lit [bs; "r"%char] b a []) as Hrun.
    destruct (starts_with [bs; "r"%char] a).
    + erewrite match_at_head; [|exact Hrun|]; rewrite consumed_app;
        [reflexivity|discriminate].
    + now apply match_at_none.
  - intros a n. unfold r_len.
    destruct (starts_with [bs; "r"%char] a) eqn:E; [|discriminate].
    intros [= <-]. apply starts_with_length in E. simpl in E. lia.
Qed.

(** ** The scan of a pattern described by [f] *)

Section ScanBy.
Variables (r : regex) (f : str -> option nat).
Hypothesis Hrf : matches_by r f.

Lemma at_pos_by (b a : str) :
  at_pos r b a
  = match f a with
    | Some n => ([Mtch (length b) n (firstn n a) []], pred n)
    | None => ([], O)
    end.
Proof.
  unfold at_pos. rewrite (proj1 Hrf).
  destruct (f a) as [n|] eqn:E; [|reflexivity]. simpl.
  apply (proj2 Hrf) in E. destruct n; [lia|reflexivity].
Qed.

Lemma scan_by_eq (b a : str) (skip : nat) :
  scan r b a skip
  = map (fun m => Mtch m.1.1 m.1.2 m.2 []) (scan_by f (length b) a skip).
Proof.
  revert b skip. induction a as [|c a IH]; intros b [|k]; simpl;
    rewrite ?at_pos_by; try reflexivity.
  - destruct (f []); reflexivity.
  - destruct (f (c :: a)); simpl; rewrite IH; reflexivity.
  - apply IH.
Qed.

Lemma scan_by_texts (pos pos' : nat) (a : str) (skip : nat) :
  map snd (scan_by f pos a skip) = map snd (scan_by f pos' a skip).
Proof.
  revert pos pos' skip. induction a as [|c a IH]; intros pos pos' [|k]; simpl;
    try reflexivity.
  - destruct (f []); reflexivity.
  - destruct (f (c :: a)); simpl; erewrite IH; reflexivity.
  - apply IH.
Qed.

Lemma findall_by (s : str) : findall r s = texts_by f s O.
Proof.
  unfold findall, finditer, texts_by. rewrite scan_by_eq, map_map. reflexivity.
Qed.

Lemma tail_by_eq (a b : str) (skip e : nat) :
  skipn (fold_left (fun _ m => (m_start m + m_len m)%nat) (scan r b a skip) e)
        (rev b ++ a)
  = tail_by f a skip (skipn e (rev b ++ a)).
Proof.
  revert b skip e. induction a as [|c a IH]; intros b skip e.
  - destruct skip as [|k]; simpl; [|reflexivity].
    rewrite at_pos_by. destruct (f []) as [n|] eqn:E; [|reflexivity].
    apply (proj2 Hrf) in E. simpl in E. lia.
  - assert (Hb : rev b ++ c :: a = rev (c :: b) ++ a).
    { simpl. now rewrite <- app_assoc. }
    destruct skip as [|k]; simpl.
    + rewrite at_pos_by. destruct (f (c :: a)) as [n|] eqn:E; simpl.
      * rewrite Hb, IH. f_equal. rewrite <- Hb.
        rewrite skipn_app, skipn_all2 by (rewrite length_rev; lia).
        rewrite length_rev. simpl app. f_equal. lia.
      * rewrite Hb. apply IH.
    + rewrite Hb. apply IH.
Qed.
End ScanBy.

Lemma last_item_cons {A} (x y : A) (l : list A) :
  last_item (x :: y :: l) = last_item (y :: l).
Proof.
  unfold last_item. simpl. destruct (rev l ++ [y]) eqn:E.
  - destruct (rev l); discriminate.
  - reflexivity.
Qed.

Lemma pieces_last (s : str) (pos : nat) (ms : list mtch) :
  last_item (pieces s pos ms)
  = ret (skipn (fold_left (fun _ m => (m_start m + m_len m)%nat) ms pos) s).
Proof.
  revert pos. induction ms as [|m ms IH]; intros pos; [reflexivity|].
  simpl. rewrite <- IH. destruct ms; apply last_item_cons.
Qed.

(** [cleanTag] is the text after the last reset marker. *)
Lemma cleanTag_of_eq (tags : str) :
  cleanTag_of tags = ret (tail_by r_len tags O tags).
Proof.
  unfold cleanTag_of, split, finditer. rewrite pieces_last.
  f_equal. f_equal. apply (tail_by_eq _ _ matches_by_r tags [] O O).
Qed.

Lemma tail_by_reset (pre post cur : str) (skip : nat) :
  (skip <= length pre)%nat ->
  tail_by r_len (pre ++ [bs; "r"%char] ++ post) skip cur
  = tail_by r_len post O post.
Proof.
  revert skip cur. induction pre as [|c pre IH]; intros skip cur Hs.
  - assert (skip = O) by (simpl in Hs; lia). subst. reflexivity.
  - destruct skip as [|k].
    + change (tail_by r_len ((c :: pre) ++ [bs; "r"%char] ++ post) O cur)
        with (match r_len (c :: pre ++ [bs; "r"%char] ++ post) with
              | Some n =>
                  tail_by r_len (pre ++ [bs; "r"%char] ++ post) (pred n)
                    (skipn n (c :: pre ++ [bs; "r"%char] ++ post))
              | None => tail_by r_len (pre ++ [bs; "r"%char] ++ post) O cur
              end).
      destruct (r_len (c :: pre ++ [bs; "r"%char] ++ post)) as [n|] eqn:E.
      * unfold r_len in E.
        destruct (starts_with _ _) eqn:Hsw in E; [|discriminate].
        injection E as <-. apply IH.
        destruct pre as [|c' pre]; [|simpl; lia].
        simpl in Hsw. rewrite andb_true_iff in Hsw. destruct Hsw as [_ Hsw].
        discriminate Hsw.
      * apply IH. lia.
    + change (tail_by r_len ((c :: pre) ++ [bs; "r"%char] ++ post) (S k) cur)
        with (tail_by r_len (pre ++ [bs; "r"%char] ++ post) k cur).
      apply IH. simpl in Hs. lia.
Qed.

(** ** Numbers: the texts [int] reads *)

Lemma digits_val_some (d : str) (acc : Z) :
  forallb is_digit d = true -> exists n, digits_val acc d = Some n.
Proof.
  revert acc. induction d as [|c d IH]; intros acc; simpl; [eauto|].
  destruct (is_digit c); [|discriminate]. simpl. apply IH.
Qed.

Lemma digits_val_digits (d : str) (acc n : Z) :
  digits_val acc d = Some n -> forallb is_digit d = true.
Proof.
  revert acc. induction d as [|c d IH]; intros acc; simpl; [reflexivity|].
  destruct (is_digit c); [|discriminate]. simpl. apply IH.
Qed.

Lemma unsigned_val_some (d : str) :
  all_digits d = true <-> exists n, unsigned_val d = Some n.
Proof.
  unfold all_digits. destruct d as [|c d]; simpl.
  - split; [discriminate|]. intros [n H]. discriminate.
  - split.
    + intros H. apply (digits_val_some (c :: d) 0 H).
    + intros [n H]. apply (digits_val_digits (c :: d) 0 n H).
Qed.

Lemma int_literal_int (arg : str) :
  int_literal arg = true <-> exists n, int arg = ret n.
Proof.
  unfold int_literal, int. destruct arg as [|c d].
  { split; [discriminate|]. intros [n H]. discriminate. }
  destruct (is_chr "+" c) eqn:E1; [|destruct (is_chr "-" c) eqn:E2];
    cbn [orb]; rewrite unsigned_val_some.
  - split; intros [n H]; [rewrite H; eauto|].
    destruct (unsigned_val d); [eauto|discriminate].
  - split; intros [n H]; [rewrite H; cbn; eauto|].
    destruct (unsigned_val d); [eauto|discriminate].
  - split; intros [n H]; [rewrite H; eauto|].
    destruct (unsigned_val (c :: d)); [eauto|discriminate].
Qed.

(** ** The shape of a number tag *)

Lemma span_forallb (p : ascii -> bool) (s : str) :
  forallb p (firstn (span p s) s) = true.
Proof.
  induction s as [|c s IH]; simpl; [reflexivity|].
  destruct (p c) eqn:E; simpl; [now rewrite E|reflexivity].
Qed.

Lemma span_all (p : ascii -> bool) (d post : str) :
  forallb p d = true ->
  match post with c :: _ => p c = false | [] => True end ->
  span p (d ++ post) = length d.
Proof.
  intros Hd Hpost. induction d as [|c d IH]; simpl in *.
  - destruct post as [|c post]; [reflexivity|]. simpl. now rewrite Hpost.
  - apply andb_true_iff in Hd as [-> Hd]. now rewrite IH.
Qed.

Lemma span_stop (p : ascii -> bool) (w v : str) (c : ascii) :
  p c = false -> (span p (w ++ c :: v) <= length w)%nat.
Proof.
  intros Hc. induction w as [|y w IH]; simpl.
  - rewrite Hc. lia.
  - destruct (p y); lia.
Qed.

Lemma digits_after_text (s a : str) (n : nat) :
  digits_after s a = Some n ->
  exists d, firstn n a = s ++ d /\ all_digits d = true.
Proof.
  unfold digits_after.
  destruct (starts_with s a) eqn:Hs; cbn [andb]; [|discriminate].
  destruct (Nat.leb_spec 1 (span is_digit (skipn (length s) a))) as [H|H];
    [|discriminate].
  intros E. assert (n = (length s + span is_digit (skipn (length s) a))%nat)
    by congruence. subst n. clear E.
  pose proof (starts_with_split s a Hs) as Ha.
  set (rest := skipn (length s) a) in *. clearbody rest. subst a.
  exists (firstn (span is_digit rest) rest). split.
  - apply firstn_app_2.
  - unfold all_digits. rewrite span_forallb, andb_true_r.
    destruct rest as [|c rest]; [simpl in H; lia|].
    simpl in H |- *. destruct (is_digit c); [reflexivity|lia].
Qed.

Lemma all_digits_literal (d : str) : all_digits d = true -> int_literal d = true.
Proof.
  unfold int_literal. destruct d as [|c d]; [discriminate|].
  intros H. destruct (is_chr "+" c || is_chr "-" c) eqn:E; [|exact H].
  apply sign_not_digit in E. unfold all_digits in H. simpl in H.
  rewrite E in H. discriminate.
Qed.

Lemma num_tag_len_text (x : ascii) (a : str) (n : nat) :
  num_tag_len x a = Some n ->
  exists arg, firstn n a = [bs; x] ++ arg /\ int_literal arg = true.
Proof.
  unfold num_tag_len.
  destruct (digits_after [bs; x] a) eqn:E1.
  { intros [= <-]. apply digits_after_text in E1 as (d & -> & Hd).
    exists d. split; [reflexivity|]. now apply all_digits_literal. }
  destruct (digits_after [bs; x; "+"%char] a) eqn:E2.
  { intros [= <-]. apply digits_after_text in E2 as (d & -> & Hd).
    exists ("+"%char :: d). split; [reflexivity|exact Hd]. }
  intros E3. apply digits_after_text in E3 as (d & -> & Hd).
  exists ("-"%char :: d). split; [reflexivity|exact Hd].
Qed.

(** ** Lists of matches *)

Section TextsBy.
Variable f : str -> option nat.

Lemma scan_by_forall (P : str -> Prop) (pos : nat) (a : str) (skip : nat) :
  (forall a' n, f a' = Some n -> P (firstn n a')) ->
  Forall P (map snd (scan_by f pos a skip)).
Proof.
  intros HP. revert pos skip.
  induction a as [|c a IH]; intros pos [|k]; simpl; try constructor.
  - destruct (f []) eqn:E; simpl; constructor; [|constructor].
    apply (HP [] n E).
  - destruct (f (c :: a)) eqn:E; simpl; [constructor|]; auto.
  - apply IH.
Qed.

Lemma scan_by_skip (pos : nat) (u v : str) :
  map snd (scan_by f pos (u ++ v) (length u)) = map snd (scan_by f O v O).
Proof.
  revert pos. induction u as [|c u IH]; intros pos; simpl.
  - apply scan_by_texts.
  - apply IH.
Qed.

(** Matches that start in [pre] end in [pre] when none can reach into [w]. *)
Lemma scan_by_confined (w : str) :
  (forall c u n, f (c :: u ++ w) = Some n -> (n <= S (length u))%nat) ->
  forall (pre : str) (pos skip : nat),
    (skip <= length pre)%nat ->
    exists L,
      map snd (scan_by f pos (pre ++ w) skip)
      = L ++ map snd (scan_by f O w O).
Proof.
  intros Hconf. induction pre as [|c pre IH]; intros pos skip Hs.
  - assert (skip = O) by (simpl in Hs; lia). subst.
    exists []. apply scan_by_texts.
  - destruct skip as [|k].
    + change (scan_by f pos ((c :: pre) ++ w) O)
        with (match f (c :: pre ++ w) with
              | Some n => (pos, n, firstn n (c :: pre ++ w))
                            :: scan_by f (S pos) (pre ++ w) (pred n)
              | None => scan_by f (S pos) (pre ++ w) O
              end).
      destruct (f (c :: pre ++ w)) as [n|] eqn:E.
      * apply Hconf in E.
        destruct (IH (S pos) (pred n)) as [L HL]; [lia|].
        exists (firstn n (c :: pre ++ w) :: L). simpl. now rewrite HL.
      * apply IH. lia.
    + change (scan_by f pos ((c :: pre) ++ w) (S k))
        with (scan_by f (S pos) (pre ++ w) k).
      apply IH. simpl in Hs. lia.
Qed.
End TextsBy.

Lemma last_item_app {A} (l : list A) (x : A) : last_item (l ++ [x]) = ret x.
Proof. unfold last_item. now rewrite rev_app_distr. Qed.

Lemma last_item_forall {A} (P : A -> Prop) (l : list A) :
  nonempty l = true -> Forall P l -> exists x, last_item l = ret x /\ P x.
Proof.
  intros Hne Hall. destruct (rev l) as [|x l'] eqn:E.
  - apply (f_equal (@rev A)) in E. rewrite rev_involutive in E. subst.
    discriminate.
  - exists x. unfold last_item. rewrite E. split; [reflexivity|].
    rewrite List.Forall_forall in Hall. apply Hall. apply in_rev.
    rewrite E. now left.
Qed.

(** ** A number tag in its place *)

Lemma starts_with_app (s r : str) : starts_with s (s ++ r) = true.
Proof.
  induction s as [|c s IH]; simpl; [reflexivity|].
  unfold is_chr. now rewrite Ascii.eqb_refl.
Qed.

Lemma starts_with_confined (s u v : str) :
  (forall y, In y s -> is_chr y bs = false) ->
  starts_with s (u ++ bs :: v) = true -> (length s <= length u)%nat.
Proof.
  revert u. induction s as [|c s IH]; intros u Hs; simpl; [lia|].
  destruct u as [|y u]; simpl.
  - rewrite (Hs c) by now left. discriminate.
  - rewrite andb_true_iff. intros [_ H].
    apply IH in H; [lia|]. intros z Hz. apply Hs. now right.
Qed.

Lemma digits_after_confined (s' u v : str) (c : ascii) (n : nat) :
  (forall y, In y s' -> is_chr y bs = false) ->
  digits_after (bs :: s') (c :: u ++ bs :: v) = Some n ->
  (n <= S (length u))%nat.
Proof.
  intros Hs'. unfold digits_after.
  destruct (starts_with (bs :: s') (c :: u ++ bs :: v)) eqn:Hs; cbn [andb];
    [|discriminate].
  cbn [starts_with] in Hs. apply andb_true_iff in Hs as [_ Hs].
  apply starts_with_confined in Hs; [|exact Hs'].
  cbn [length skipn]. rewrite skipn_app.
  replace (length s' - length u)%nat with O by lia. cbn [skipn].
  pose proof (span_stop is_digit (skipn (length s') u) v bs eq_refl) as Hsp.
  rewrite length_skipn in Hsp.
  destruct (1 <=? _)%nat; [|discriminate]. intros [= <-]. lia.
Qed.

Lemma num_tag_len_confined (x c : ascii) (u v : str) (n : nat) :
  tag_letter x ->
  num_tag_len x (c :: u ++ bs :: v) = Some n -> (n <= S (length u))%nat.
Proof.
  intros Hx. unfold num_tag_len.
  assert (H1 : forall y, In y [x] -> is_chr y bs = false).
  { intros y [<-|[]]. destruct Hx as [-> | ->]; reflexivity. }
  assert (H2 : forall y, In y [x; "+"%char] -> is_chr y bs = false).
  { intros y [<-|[<-|[]]]; [|reflexivity].
    destruct Hx as [-> | ->]; reflexivity. }
  assert (H3 : forall y, In y [x; "-"%char] -> is_chr y bs = false).
  { intros y [<-|[<-|[]]]; [|reflexivity].
    destruct Hx as [-> | ->]; reflexivity. }
  destruct (digits_after [bs; x] _) eqn:E1.
  { intros [= <-]. now apply digits_after_confined in E1. }
  destruct (digits_after [bs; x; "+"%char] _) eqn:E2.
  { intros [= <-]. now apply digits_after_confined in E2. }
  intros E3. now apply digits_after_confined in E3.
Qed.

Lemma all_digits_span (d post : str) :
  all_digits d = true -> no_digit_ahead post ->
  span is_digit (d ++ post) = length d /\ (1 <= length d)%nat.
Proof.
  unfold all_digits. rewrite andb_true_iff. intros [Hne Hd] Hpost. split.
  - now apply span_all.
  - destruct d; [discriminate|simpl; lia].
Qed.

Lemma digits_after_hit (s d post : str) :
  all_digits d = true -> no_digit_ahead post ->
  digits_after s (s ++ d ++ post) = Some (length s + length d)%nat.
Proof.
  intros Hd Hpost. unfold digits_after.
  rewrite starts_with_app, skipn_app, skipn_all, Nat.sub_diag.
  change (skipn 0 (d ++ post)) with (d ++ post). cbn [app andb].
  destruct (all_digits_span d post Hd Hpost) as [-> Hlen].
  now rewrite (proj2 (Nat.leb_le 1 (length d)) Hlen).
Qed.

Lemma digits_after_miss (s r : str) (c : ascii) :
  is_digit c = false -> digits_after s (s ++ c :: r) = None.
Proof.
  intros Hc. unfold digits_after.
  rewrite starts_with_app, skipn_app, skipn_all, Nat.sub_diag.
  change (skipn 0 (c :: r)) with (c :: r). cbn [app andb].
  simpl. now rewrite Hc.
Qed.

Lemma sign_cases (c : ascii) :
  is_chr "+" c || is_chr "-" c = true -> c = "+"%char \/ c = "-"%char.
Proof.
  rewrite orb_true_iff. unfold is_chr.
  intros [H|H]; apply Ascii.eqb_eq in H; auto.
Qed.

Lemma num_tag_len_tag (x : ascii) (arg post : str) :
  tag_letter x -> int_literal arg = true -> no_digit_ahead post ->
  num_tag_len x ([bs; x] ++ arg ++ post) = Some (2 + length arg)%nat.
Proof.
  intros Hx Harg Hpost. unfold num_tag_len, int_literal in *.
  destruct arg as [|c d]; [discriminate|].
  destruct (is_chr "+" c || is_chr "-" c) eqn:Hsign.
  - change ([bs; x] ++ (c :: d) ++ post) with ([bs; x] ++ c :: d ++ post).
    rewrite (digits_after_miss [bs; x] (d ++ post) c (sign_not_digit c Hsign)).
    destruct (sign_cases c Hsign) as [-> | ->].
    + change ([bs; x] ++ "+"%char :: d ++ post)
        with ([bs; x; "+"%char] ++ d ++ post).
      now rewrite digits_after_hit.
    + assert (Hno : digits_after [bs; x; "+"%char]
                      ([bs; x] ++ "-"%char :: d ++ post) = None).
      { unfold digits_after. simpl. unfold is_chr.
        now rewrite !Ascii.eqb_refl. }
      rewrite Hno.
      change ([bs; x] ++ "-"%char :: d ++ post)
        with ([bs; x; "-"%char] ++ d ++ post).
      now rewrite digits_after_hit.
  - now rewrite digits_after_hit.
Qed.

Lemma int_len_literal (arg : str) :
  int_literal arg = true -> int_len arg = Some (length arg).
Proof.
  unfold int_literal. destruct arg as [|c d]; [discriminate|]. cbn [int_len].
  destruct (is_chr "+" c || is_chr "-" c) eqn:Hsign; cbn [andb]; intros Hd.
  - destruct (all_digits_span d [] Hd I) as [Hsp Hlen].
    rewrite app_nil_r in Hsp. rewrite Hsp.
    now rewrite (proj2 (Nat.leb_le 1 (length d)) Hlen).
  - destruct (all_digits_span (c :: d) [] Hd I) as [Hsp Hlen].
    rewrite app_nil_r in Hsp. rewrite Hsp.
    now rewrite (proj2 (Nat.leb_le 1 (length (c :: d))) Hlen).
Qed.

(** [INT_PATTERN.findall] on the text of a number tag: its argument. *)
Lemma int_findall_tag (x : ascii) (arg : str) :
  tag_letter x -> int_literal arg = true ->
  findall INT_PATTERN ([bs; x] ++ arg) = [arg].
Proof.
  intros Hx Harg. rewrite (findall_by _ _ matches_by_int). unfold texts_by.
  assert (H0 : int_len ([bs; x] ++ arg) = None).
  { destruct Hx as [-> | ->]; reflexivity. }
  assert (H1 : int_len (x :: arg) = None).
  { destruct Hx as [-> | ->]; reflexivity. }
  cbn [app scan_by]. cbn [app] in H0. rewrite H0, H1.
  pose proof (int_len_literal arg Harg) as H2.
  destruct arg as [|c d]; [discriminate|].
  cbn [scan_by]. rewrite H2.
  cbn [map snd]. rewrite firstn_all. f_equal. cbn [length pred].
  rewrite <- (app_nil_r d) at 1. rewrite scan_by_skip. reflexivity.
Qed.

(** ** The three tags of [parseTags] *)

Lemma bind_ret {A B} (a : A) (f : A -> M B) : bind (ret a) f = f a.
Proof. unfold bind, ret. now destruct (f a). Qed.

Lemma set_bold_fields (n : Z) (style : AssStyle) :
  fontName (set_bold n style) = fontName style
  /\ italic (set_bold n style) = italic style.
Proof.
  unfold set_bold.
  repeat match goal with
         | |- context [if ?c then _ else _] => destruct c
         end; split; reflexivity.
Qed.

Lemma findall_num_shape (x : ascii) (cleanTag : str) :
  Forall (fun t => exists arg, t = [bs; x] ++ arg /\ int_literal arg = true)
         (findall (TAG_NUM_PATTERN x) cleanTag).
Proof.
  rewrite (findall_by _ _ (matches_by_num x)). unfold texts_by.
  apply scan_by_forall. intros a n H. now apply num_tag_len_text in H.
Qed.

(** The last number tag [\x<arg>] of a text followed by no other. *)
Lemma findall_num_last (x : ascii) (pre arg post : str) :
  tag_letter x -> int_literal arg = true -> no_num_tag x post ->
  exists L,
    findall (TAG_NUM_PATTERN x) (pre ++ [bs; x] ++ arg ++ post)
    = L ++ [[bs; x] ++ arg].
Proof.
  intros Hx Harg [Hnone Hpost].
  rewrite (findall_by _ _ (matches_by_num x)) in Hnone |- *.
  unfold texts_by in *.
  destruct (scan_by_confined (num_tag_len x) ([bs; x] ++ arg ++ post)
              (fun c u n => num_tag_len_confined x c u _ n Hx) pre O O)
    as [L HL]; [lia|].
  exists L. rewrite HL. f_equal.
  change ([bs; x] ++ arg ++ post) with (bs :: (x :: arg) ++ post).
  cbn [scan_by].
  change (bs :: (x :: arg) ++ post) with ([bs; x] ++ arg ++ post).
  rewrite (num_tag_len_tag x arg post Hx Harg Hpost).
  cbn [map snd]. f_equal.
  - rewrite app_assoc.
    replace (2 + length arg)%nat with (length ([bs; x] ++ arg) + 0)%nat
      by (rewrite length_app; simpl; lia).
    rewrite firstn_app_2. cbn [firstn]. now rewrite app_nil_r.
  - replace (pred (2 + length arg)) with (length (x :: arg)) by (simpl; lia).
    rewrite scan_by_skip. exact Hnone.
Qed.

Lemma num_tag_number (x : ascii) (arg : str) :
  tag_letter x -> int_literal arg = true ->
  first (findall INT_PATTERN ([bs; x] ++ arg)) = ret arg.
Proof. intros Hx Harg. now rewrite int_findall_tag. Qed.

Lemma apply_bold_total (cleanTag : str) (style : AssStyle) :
  apply_bold cleanTag style = ret style
  \/ exists n, apply_bold cleanTag style = ret (set_bold n style).
Proof.
  unfold apply_bold.
  destruct (nonempty (findall TAG_BOLD_PATTERN cleanTag)) eqn:Hne; [|now left].
  right.
  destruct (last_item_forall _ _ Hne (findall_num_shape "b" cleanTag))
    as (t & Hlast & arg & -> & Harg).
  destruct (proj1 (int_literal_int arg) Harg) as [n Hn].
  exists n. rewrite Hlast, bind_ret.
  rewrite (num_tag_number "b" arg (or_introl eq_refl) Harg), bind_ret.
  now rewrite Hn, bind_ret.
Qed.

Lemma apply_italic_total (cleanTag : str) (style : AssStyle) :
  apply_italic cleanTag style = ret style
  \/ apply_italic cleanTag style = ret (replace_italic style true).
Proof.
  unfold apply_italic.
  destruct (nonempty (findall TAG_ITALIC_PATTERN cleanTag)) eqn:Hne;
    [|now left].
  destruct (last_item_forall _ _ Hne (findall_num_shape "i" cleanTag))
    as (t & Hlast & arg & -> & Harg).
  rewrite Hlast, bind_ret.
  rewrite (num_tag_number "i" arg (or_intror eq_refl) Harg), bind_ret.
  destruct (str_eqb arg (lit "1")); auto.
Qed.

Lemma apply_fn_total (cleanTag : str) (style : AssStyle) :
  exists style' out,
    apply_fn cleanTag style = (Ok style', out)
    /\ weight style' = weight style /\ italic style' = italic style.
Proof.
  unfold apply_fn. destruct (rev _) as [|lastFont l] eqn:E.
  { exists style, []. auto. }
  assert (Hin : In lastFont (findall_groups TAG_FN_PATTERN 8 cleanTag)).
  { apply in_rev. rewrite E. now left. }
  unfold findall_groups in Hin. apply in_map_iff in Hin as (m & <- & _).
  cbn [seq map length Nat.ltb Nat.leb first]. rewrite bind_ret.
  destruct (negb _ && negb _).
  - eexists _, []. split; [reflexivity|]. split; reflexivity.
  - eexists style, [fn_warning]. split; [reflexivity|]. split; reflexivity.
Qed.

Lemma nonempty_app {A} (l1 l2 : list A) (x : A) : nonempty (l1 ++ x :: l2) = true.
Proof. now destruct l1. Qed.

(** [parseTags] never raises. *)
Lemma parseTags_total (tags : str) (style : AssStyle) :
  exists style' out, parseTags tags style = (Ok style', out).
Proof.
  unfold parseTags. rewrite cleanTag_of_eq, bind_ret.
  destruct (nonempty _); [|exists style, []; reflexivity].
  destruct (apply_bold_total (tail_by r_len tags 0 tags) style) as [->|[n ->]];
    rewrite bind_ret.
  - destruct (apply_italic_total (tail_by r_len tags 0 tags) style) as [->| ->];
      rewrite bind_ret;
      match goal with
      | |- context [apply_fn ?c ?s] =>
          destruct (apply_fn_total c s) as (s' & out & -> & _)
      end; eauto.
  - destruct (apply_italic_total (tail_by r_len tags 0 tags) (set_bold n style))
      as [->| ->];
      rewrite bind_ret;
      match goal with
      | |- context [apply_fn ?c ?s] =>
          destruct (apply_fn_total c s) as (s' & out & -> & _)
      end; eauto.
Qed.

Lemma apply_bold_last (pre arg post : str) (n : Z) (style : AssStyle) :
  int arg = ret n -> no_num_tag "b" post ->
  apply_bold (pre ++ [bs; "b"%char] ++ arg ++ post) style
  = ret (set_bold n style).
Proof.
  intros Hn Hpost.
  assert (Harg : int_literal arg = true) by (apply int_literal_int; eauto).
  destruct (findall_num_last "b" pre arg post (or_introl eq_refl) Harg Hpost)
    as [L HL].
  unfold apply_bold, TAG_BOLD_PATTERN. rewrite HL.
  assert (Hne : nonempty (L ++ [[bs; "b"%char] ++ arg]) = true)
    by apply nonempty_app.
  rewrite Hne, last_item_app, bind_ret.
  rewrite (num_tag_number "b" arg (or_introl eq_refl) Harg), bind_ret.
  now rewrite Hn, bind_ret.
Qed.

Lemma apply_italic_last (pre arg post : str) (style : AssStyle) :
  int_literal arg = true -> no_num_tag "i" post ->
  apply_italic (pre ++ [bs; "i"%char] ++ arg ++ post) style
  = ret (if str_eqb arg (lit "1") then replace_italic style true else style).
Proof.
  intros Harg Hpost.
  destruct (findall_num_last "i" pre arg post (or_intror eq_refl) Harg Hpost)
    as [L HL].
  unfold apply_italic, TAG_ITALIC_PATTERN. rewrite HL.
  assert (Hne : nonempty (L ++ [[bs; "i"%char] ++ arg]) = true)
    by apply nonempty_app.
  rewrite Hne, last_item_app, bind_ret.
  rewrite (num_tag_number "i" arg (or_intror eq_refl) Harg), bind_ret.
  now destruct (str_eqb arg (lit "1")).
Qed.

(** ** The loops of [parseLine] and [getAssStyle] *)

Lemma parseLine_loop_spec (pairs : list (str * str)) (style : AssStyle)
    (acc : str) (S0 : gset AssStyle) :
  exists S1 out,
    parseLine_loop pairs style acc S0 = (Ok S1, out)
    /\ forall s,
        s ∈ S1
        <-> s ∈ S0
            \/ exists before p after out',
                pairs = before ++ p :: after
                /\ parseTags (acc ++ cumulative_tags (before ++ [p])) style
                   = (Ok s, out').
Proof.
  revert acc S0. induction pairs as [|[tags text] pairs IH]; intros acc S0.
  - exists S0, []. split; [reflexivity|]. intros s. split; [auto|].
    intros [H|(before & p & after & _ & H & _)]; [exact H|].
    now destruct before.
  - cbn [parseLine_loop].
    destruct (parseTags_total (acc ++ tags ++ [bs; "}"%char]) style)
      as (s0 & out0 & Hs0).
    rewrite Hs0. cbn [bind].
    destruct (IH (acc ++ tags ++ [bs; "}"%char]) (S0 ∪ {[s0]}))
      as (S1 & out1 & -> & HS1).
    exists S1, (out0 ++ out1). split; [reflexivity|].
    intros s. split.
    + intros Hs. apply HS1 in Hs as [Hs|(before & p & after & out' & -> & H)].
      * apply elem_of_union in Hs as [Hs|Hs]; [auto|].
        apply elem_of_singleton in Hs as ->.
        right. exists [], (tags, text), pairs, out0. split; [reflexivity|].
        unfold cumulative_tags. simpl. now rewrite app_nil_r.
      * right. exists ((tags, text) :: before), p, after, out'.
        split; [reflexivity|].
        unfold cumulative_tags in *. simpl.
        rewrite <- !app_assoc in H. rewrite <- ?app_assoc. exact H.
    + intros [H|(before & p & after & out' & Hp & H)]; apply HS1.
      * left. apply elem_of_union. now left.
      * destruct before as [|q before]; simpl in Hp; injection Hp as <- ->.
        -- left. apply elem_of_union. right. apply elem_of_singleton.
           unfold cumulative_tags in H. simpl in H.
           rewrite app_nil_r in H. congruence.
        -- right. exists before, p, after, out'. split; [reflexivity|].
           unfold cumulative_tags in *. simpl in H.
           rewrite <- !app_assoc in H. rewrite <- ?app_assoc. exact H.
Qed.

(** [parseLine] never raises. *)
Lemma parseLine_total (text : str) (style : AssStyle) :
  exists S1 out, parseLine text style = (Ok S1, out).
Proof.
  destruct (parseLine_loop_spec (line_pairs text) style [] ∅)
    as (S1 & out & H & _).
  eauto.
Qed.

Lemma getAssStyle_loop_unknown (styles : gmap str AssStyle) (fileName : str)
    (events : list Event) (i0 : Z) (S0 : gset AssStyle) :
  (exists k line_style text,
      events !! k = Some (Dialogue line_style text)
      /\ styles !! line_style = None) ->
  exists j line_style text out,
    events !! j = Some (Dialogue line_style text)
    /\ styles !! line_style = None
    /\ getAssStyle_loop styles fileName events i0 S0
       = (Raise SystemExit,
          out ++ [unknown_style_message line_style (i0 + Z.of_nat j) fileName]).
Proof.
  revert i0 S0. induction events as [|e events IH]; intros i0 S0.
  { intros (k & nm & tx & Hk & _). now rewrite lookup_nil in Hk. }
  intros (k & nm & tx & Hk & Hnone).
  destruct e as [nm0 tx0|nm0 tx0].
  - cbn [getAssStyle_loop]. unfold getitem.
    destruct (styles !! nm0) as [st|] eqn:E.
    + destruct k as [|k].
      { simpl in Hk. injection Hk as -> ->. congruence. }
      destruct (parseLine_total tx0 st) as (F & o & HF).
      rewrite bind_ret, HF. cbn [bind ret try_except_KeyError].
      destruct (IH (i0 + 1) (S0 ∪ F)) as (j' & nm'' & tx'' & out' & Hj' & Hn' & ->);
        [exists k, nm, tx; auto|].
      exists (S j'), nm'', tx'', (o ++ out'). repeat split; auto.
      replace (i0 + Z.of_nat (S j')) with (i0 + 1 + Z.of_nat j') by lia.
      now rewrite app_nil_r, <- app_assoc.
    + exists O, nm0, tx0, []. repeat split; auto.
      cbn. rewrite Z.add_0_r. reflexivity.
  - cbn [getAssStyle_loop].
    destruct k as [|k]; [discriminate|].
    destruct (IH (i0 + 1) S0) as (j' & nm'' & tx'' & out' & Hj' & Hn' & ->);
      [exists k, nm, tx; auto|].
    exists (S j'), nm'', tx'', out'. repeat split; auto.
    now replace (i0 + Z.of_nat (S j')) with (i0 + 1 + Z.of_nat j') by lia.
Qed.

Lemma nonempty_tag (pre r : str) (x : ascii) :
  nonempty (pre ++ [bs; x] ++ r) = true.
Proof. now destruct pre. Qed.


(** ** The functions run on a small document *)

(** One dialogue line in the style [Default], bold from its first block and
    italic from its second, against a collection that holds a bold upright
    and a regular italic Arial: two styles are required, and the italic one
    is matched by the italic font although the upright one has its weight. *)
Example hello_world_document :
  let styles := [mkStyle (lit "Default") (lit "Arial") false false] in
  let events := [Dialogue (lit "Default") (lit "{\b1}Hello{\i1} World")] in
  line_pairs (lit "{\b1}Hello{\i1} World")
  = [(lit "\b1", lit "Hello"); (lit "\i1", lit " World")]
  /\ (exists styleSet,
        getAssStyle styles events (lit "hello.ass") = (Ok styleSet, [])
        /\ forall s, s ∈ styleSet <-> s = bold_upright \/ s = bold_italic)
  /\ searchFont [arial_bold; arial_italic] bold_upright
     = [arial_bold; mkFont (lit "ariali.ttf") arial 550 true]
  /\ searchFont [arial_bold; arial_italic] bold_italic
     = [mkFont (lit "ariali.ttf") arial 550 true; arial_bold].
Proof.
  cbv zeta. split; [reflexivity|]. split; [|split; reflexivity].
  assert (Hreg : style_registry [mkStyle (lit "Default") (lit "Arial") false false]
                 !! lit "Default" = Some Default).
  { unfold style_registry. cbn [foldl name]. now rewrite lookup_insert_eq. }
  assert (Hpairs : line_pairs (lit "{\b1}Hello{\i1} World")
                   = [(lit "\b1", lit "Hello"); (lit "\i1", lit " World")])
    by reflexivity.
  assert (H1 : parseTags (lit "\b1\}") Default = (Ok bold_upright, []))
    by reflexivity.
  assert (H2 : parseTags (lit "\b1\}\i1\}") Default = (Ok bold_italic, []))
    by reflexivity.
  unfold getAssStyle. cbn [getAssStyle_loop]. unfold getitem. rewrite Hreg.
  rewrite bind_ret. unfold parseLine. rewrite Hpairs.
  cbn [parseLine_loop app].
  change (lit "\b1" ++ [bs; "}"%char]) with (lit "\b1\}").
  rewrite H1. cbn [bind].
  change (lit "\b1\}" ++ lit "\i1" ++ [bs; "}"%char]) with (lit "\b1\}\i1\}").
  rewrite H2. cbn [bind ret app try_except_KeyError].
  eexists. split; [reflexivity|]. intros s.
  rewrite !elem_of_union, !elem_of_singleton.
  split; [intros [H|[[H|H]|H]]; auto; now apply not_elem_of_empty in H|].
  intros [H|H]; auto.
Qed.

(** ** More on [parseTags] *)

Lemma set_bold_hundred (n : Z) (style : AssStyle) :
  hundred (weight (set_bold n style)).
Proof.
  unfold set_bold, hundred.
  destruct (Z.leb_spec n 0); [exists 4; cbn; lia|].
  destruct (Z.eqb_spec n 1); [exists 7; cbn; lia|].
  destruct (Z.leb_spec 2 n); [|lia].
  destruct (Z.leb_spec n 150); [exists 1; cbn; lia|]. cbn [andb].
  destruct (Z.leb_spec 151 n); [|lia].
  destruct (Z.leb_spec n 250); [exists 2; cbn; lia|]. cbn [andb].
  destruct (Z.leb_spec 251 n); [|lia].
  destruct (Z.leb_spec n 350); [exists 3; cbn; lia|]. cbn [andb].
  destruct (Z.leb_spec 351 n); [|lia].
  destruct (Z.leb_spec n 450); [exists 4; cbn; lia|]. cbn [andb].
  destruct (Z.leb_spec 451 n); [|lia].
  destruct (Z.leb_spec n 550); [exists 5; cbn; lia|]. cbn [andb].
  destruct (Z.leb_spec 551 n); [|lia].
  destruct (Z.leb_spec n 650); [exists 6; cbn; lia|]. cbn [andb].
  destruct (Z.leb_spec 651 n); [|lia].
  destruct (Z.leb_spec n 750); [exists 7; cbn; lia|]. cbn [andb].
  destruct (Z.leb_spec 751 n); [|lia].
  destruct (Z.leb_spec n 850); [exists 8; cbn; lia|]. cbn [andb].
  destruct (Z.leb_spec 851 n); [exists 9; cbn; lia|lia].
Qed.

Lemma apply_fn_out (cleanTag : str) (style : AssStyle) :
  exists style',
    (apply_fn cleanTag style = (Ok style', [])
     \/ (apply_fn cleanTag style = (Ok style', [fn_warning]) /\ style' = style))
    /\ weight style' = weight style /\ italic style' = italic style.
Proof.
  unfold apply_fn. destruct (rev _) as [|lastFont l] eqn:E.
  { exists style. auto. }
  assert (Hin : In lastFont (findall_groups TAG_FN_PATTERN 8 cleanTag)).
  { apply in_rev. rewrite E. now left. }
  unfold findall_groups in Hin. apply in_map_iff in Hin as (m & <- & _).
  cbn [seq map length Nat.ltb Nat.leb first]. rewrite bind_ret.
  destruct (negb _ && negb _).
  - eexists. split; [left; reflexivity|]. split; reflexivity.
  - exists style. split; [right; split; reflexivity|]. split; reflexivity.
Qed.

(** What [parseTags] does to the three fields, for any tag string. *)
Lemma parseTags_frame (tags : str) (style : AssStyle) :
  exists style' out,
    parseTags tags style = (Ok style', out)
    /\ (out = [] \/ out = [fn_warning] /\ fontName style' = fontName style)
    /\ (weight style' = weight style \/ hundred (weight style'))
    /\ (italic style' = italic style \/ italic style' = true).
Proof.
  unfold parseTags. rewrite cleanTag_of_eq, bind_ret.
  destruct (nonempty _).
  2:{ exists style, []. repeat split; auto. }
  set (c := tail_by r_len tags 0 tags).
  assert (Hb : exists s1, apply_bold c style = ret s1
                 /\ fontName s1 = fontName style
                 /\ italic s1 = italic style
                 /\ (weight s1 = weight style \/ hundred (weight s1))).
  { destruct (apply_bold_total c style) as [H|[n H]]; rewrite H.
    - exists style. auto.
    - exists (set_bold n style). destruct (set_bold_fields n style).
      repeat split; auto. right. apply set_bold_hundred. }
  destruct Hb as (s1 & -> & Hf1 & Hi1 & Hw1). rewrite bind_ret.
  assert (Hi : exists s2, apply_italic c s1 = ret s2
                 /\ fontName s2 = fontName s1
                 /\ weight s2 = weight s1
                 /\ (italic s2 = italic s1 \/ italic s2 = true)).
  { destruct (apply_italic_total c s1) as [H|H]; rewrite H.
    - exists s1. auto.
    - exists (replace_italic s1 true). repeat split; auto. }
  destruct Hi as (s2 & -> & Hf2 & Hw2 & Hi2). rewrite bind_ret.
  destruct (apply_fn_out c s2) as (s3 & Hout & Hw3 & Hi3).
  destruct Hout as [H|[H Hs3]]; rewrite H.
  - exists s3, []. split; [reflexivity|]. split; [auto|].
    rewrite Hw3, Hw2, Hi3. split; [exact Hw1|].
    destruct Hi2 as [Hi2|Hi2]; rewrite Hi2; auto.
  - subst s3. exists s2, [fn_warning]. split; [reflexivity|].
    split; [right; split; congruence|].
    rewrite Hw2. split; [exact Hw1|].
    destruct Hi2 as [Hi2|Hi2]; rewrite Hi2; auto.
Qed.

(** ** A line without override blocks *)

Lemma span_forall (p : ascii -> bool) (s : str) :
  forallb p s = true -> span p s = length s.
Proof.
  intros H. rewrite <- (app_nil_r s) at 1. now apply span_all.
Qed.

Lemma scan_skip_all (r : regex) (b a : str) :
  scan r b a (length a) = scan r (rev a ++ b) [] O.
Proof.
  revert b. induction a as [|c a IH]; intros b; [reflexivity|].
  cbn [length scan]. rewrite IH. cbn [rev]. now rewrite <- app_assoc.
Qed.

Lemma run_LINE_plain (b text : str) :
  forallb (not_chr "{") text = true ->
  exists tl,
    run LINE_PATTERN (Cursor b text [])
    = Cursor (rev text ++ b) [] [(2%nat, text)] :: tl.
Proof.
  intros Hplain.
  assert (Hopt : run (Seq (Cls (is_chr "{"))
                       (Seq (Grp 1 (Rep true 0 (not_chr "}")))
                            (Opt (Cls (is_chr "}")))))
                     (Cursor b text []) = []).
  { cbn [run after]. destruct text as [|x text]; [reflexivity|].
    simpl in Hplain. apply andb_true_iff in Hplain as [Hx _].
    unfold not_chr in Hx. unfold is_chr.
    destruct (Ascii.eqb "{" x); [discriminate|reflexivity]. }
  unfold LINE_PATTERN.
  change (run (Seq ?o ?g) ?c) with (flat_map (run g) (run o c)).
  change (run (Opt ?x) ?c) with (run x c ++ [c]).
  rewrite Hopt. cbn [app flat_map]. rewrite app_nil_r.
  cbn [run before after groups].
  destruct (rep_greedy_head (not_chr "{") 0 b text [] (Nat.le_0_l _))
    as [tl ->].
  rewrite (span_forall _ _ Hplain), firstn_all, skipn_all.
  cbn [map before after groups]. eexists. f_equal. f_equal.
  rewrite length_app, length_rev.
  replace (length text + length b - length b)%nat with (length text) by lia.
  rewrite <- (length_rev text) at 1.
  rewrite firstn_app, firstn_all, Nat.sub_diag. cbn [firstn].
  now rewrite app_nil_r, rev_involutive.
Qed.

Lemma match_at_first (r : regex) (b a : str) (c : cursor) (tl : list cursor) :
  run r (Cursor b a []) = c :: tl ->
  match_at r b a false = Some (consumed b c, groups c).
Proof. intros Hrun. unfold match_at. now rewrite Hrun. Qed.

Lemma at_pos_LINE_end (b : str) :
  at_pos LINE_PATTERN b [] = ([Mtch (length b) 0 [] [(2%nat, [])]], O).
Proof.
  assert (Hrun : run LINE_PATTERN (Cursor b [] [])
                 = [Cursor b [] [(2%nat, [])]]).
  { cbn. now rewrite Nat.sub_diag. }
  unfold at_pos, match_at. rewrite Hrun.
  cbn [List.filter negb orb]. unfold consumed. cbn [before groups].
  rewrite Nat.sub_diag. reflexivity.
Qed.

Lemma at_pos_LINE_plain (b text : str) (c : ascii) :
  forallb (not_chr "{") (c :: text) = true ->
  at_pos LINE_PATTERN b (c :: text)
  = ([Mtch (length b) (S (length text)) (c :: text) [(2%nat, c :: text)]],
     length text).
Proof.
  intros Hplain. destruct (run_LINE_plain b (c :: text) Hplain) as [tl Hrun].
  unfold at_pos. rewrite (match_at_first _ _ _ _ _ Hrun).
  rewrite consumed_app, length_rev, firstn_all. reflexivity.
Qed.

Lemma line_pairs_plain (text : str) :
  forallb (not_chr "{") text = true ->
  line_pairs text = match text with [] => [] | _ :: _ => [([], text)] end.
Proof.
  intros Hplain. unfold line_pairs, finditer. destruct text as [|c text].
  - cbn [scan]. rewrite at_pos_LINE_end. reflexivity.
  - cbn [scan]. rewrite (at_pos_LINE_plain [] text c Hplain).
    rewrite scan_skip_all. cbn [scan]. rewrite at_pos_LINE_end. reflexivity.
Qed.

Lemma parseTags_separator (style : AssStyle) :
  parseTags [bs; "}"%char] style = (Ok style, []).
Proof. destruct style. reflexivity. Qed.

(** ** The registry of [getAssStyle] *)

Lemma style_registry_eq (styles : list Style) :
  style_registry styles
  = foldl (fun d style => <[name style := registry_entry style]> d) ∅ styles.
Proof. reflexivity. Qed.

Lemma registry_fold_other (styles : list Style) (d : gmap str AssStyle) (n : str) :
  (forall s, In s styles -> name s <> n) ->
  foldl (fun d style => <[name style := registry_entry style]> d) d styles !! n
  = d !! n.
Proof.
  revert d. induction styles as [|s styles IH]; intros d Hno; [reflexivity|].
  cbn [foldl]. rewrite IH by (intros s' Hs'; apply Hno; now right).
  apply lookup_insert_ne. apply Hno. now left.
Qed.

Lemma registry_fold_some (styles : list Style) (d : gmap str AssStyle)
    (n : str) (st : AssStyle) :
  foldl (fun d style => <[name style := registry_entry style]> d) d styles !! n
  = Some st ->
  d !! n = Some st
  \/ exists s, In s styles /\ name s = n /\ st = registry_entry s.
Proof.
  revert d. induction styles as [|s styles IH]; intros d H; [now left|].
  cbn [foldl] in H. apply IH in H as [H|(s' & Hs' & Hn & Hst)].
  - destruct (decide (name s = n)) as [<-|Hne].
    + rewrite lookup_insert_eq in H. injection H as <-.
      right. exists s. split; [now left|auto].
    + rewrite lookup_insert_ne in H by exact Hne. now left.
  - right. exists s'. split; [now right|auto].
Qed.

Lemma style_registry_some (styles : list Style) (n : str) (st : AssStyle) :
  style_registry styles !! n = Some st ->
  exists s, In s styles /\ name s = n /\ st = registry_entry s.
Proof.
  rewrite style_registry_eq. intros H.
  apply registry_fold_some in H as [H|H]; [|exact H].
  rewrite lookup_empty in H. discriminate.
Qed.

Lemma registry_fold_none (styles : list Style) (d : gmap str AssStyle) (n : str) :
  foldl (fun d style => <[name style := registry_entry style]> d) d styles !! n
  = None ->
  d !! n = None /\ forall s, In s styles -> name s <> n.
Proof.
  revert d. induction styles as [|s styles IH]; intros d H.
  - split; [exact H|]. intros s [].
  - cbn [foldl] in H. apply IH in H as [H Hno].
    destruct (decide (name s = n)) as [<-|Hne].
    + rewrite lookup_insert_eq in H. discriminate.
    + rewrite lookup_insert_ne in H by exact Hne. split; [exact H|].
      intros s' [<-|Hs']; auto.
Qed.

Lemma style_registry_none (styles : list Style) (n : str) :
  style_registry styles !! n = None
  <-> forall s, In s styles -> name s <> n.
Proof.
  rewrite style_registry_eq. split.
  - intros H. now apply registry_fold_none in H.
  - intros Hno. rewrite registry_fold_other by exact Hno. apply lookup_empty.
Qed.

Lemma style_registry_last (l1 l2 : list Style) (s : Style) :
  (forall s', In s' l2 -> name s' <> name s) ->
  style_registry (l1 ++ s :: l2) !! name s = Some (registry_entry s).
Proof.
  intros Hno. rewrite style_registry_eq, foldl_app. cbn [foldl].
  rewrite registry_fold_other by exact Hno. apply lookup_insert_eq.
Qed.

Lemma registry_entry_weight (s : Style) : hundred (weight (registry_entry s)).
Proof.
  unfold registry_entry, hundred. cbn [weight].
  destruct (bold s); [exists 7|exists 4]; lia.
Qed.

(** ** [getAssStyle] when it returns and when it exits *)

Section GetAssStyle.
Variables (styles : gmap str AssStyle) (fileName : str).

Lemma getAssStyle_loop_known (events : list Event) (i0 : Z)
    (S0 : gset AssStyle) :
  Forall (known styles) events ->
  exists S1 out,
    getAssStyle_loop styles fileName events i0 S0 = (Ok S1, out)
    /\ forall s,
        s ∈ S1
        <-> s ∈ S0
            \/ exists line_style text st F o,
                In (Dialogue line_style text) events
                /\ styles !! line_style = Some st
                /\ parseLine text st = (Ok F, o)
                /\ s ∈ F.
Proof.
  revert i0 S0. induction events as [|e events IH]; intros i0 S0 Hall.
  - exists S0, []. split; [reflexivity|]. intros s. split; [auto|].
    intros [H|(? & ? & ? & ? & ? & [] & _)]. exact H.
  - apply Forall_cons in Hall as [He Hall].
    destruct e as [nm tx|nm tx].
    + destruct He as [st Hst].
      destruct (parseLine_total tx st) as (F & o & HF).
      destruct (IH (i0 + 1) (S0 ∪ F) Hall) as (S1 & out & Hloop & HS1).
      exists S1, (o ++ out). split.
      * cbn [getAssStyle_loop]. unfold getitem. rewrite Hst, bind_ret, HF.
        cbn [bind ret try_except_KeyError]. rewrite Hloop.
        now rewrite app_nil_r.
      * intros s. split.
        -- intros Hs. apply HS1 in Hs
             as [Hs|(nm' & tx' & st' & F' & o' & Hin & Hrest)].
           ++ apply elem_of_union in Hs as [Hs|Hs]; [auto|].
              right. exists nm, tx, st, F, o. split; [now left|auto].
           ++ right. exists nm', tx', st', F', o'. split; [now right|auto].
        -- intros [Hs|(nm' & tx' & st' & F' & o' & [Hin|Hin] & H1 & H2 & H3)];
             apply HS1.
           ++ left. apply elem_of_union. now left.
           ++ injection Hin as <- <-. left. apply elem_of_union. right.
              congruence.
           ++ right. exists nm', tx', st', F', o'. auto.
    + destruct (IH (i0 + 1) S0 Hall) as (S1 & out & Hloop & HS1).
      exists S1, out. split; [exact Hloop|].
      intros s. rewrite HS1. split.
      * intros [Hs|(nm' & tx' & st' & F' & o' & Hin & Hrest)]; [auto|].
        right. exists nm', tx', st', F', o'. split; [now right|auto].
      * intros [Hs|(nm' & tx' & st' & F' & o' & [Hin|Hin] & Hrest)];
          [auto|discriminate|].
        right. exists nm', tx', st', F', o'. auto.
Qed.

Lemma getAssStyle_loop_first_unknown (events : list Event) (i0 : Z)
    (S0 : gset AssStyle) (j : nat) (line_style text : str) :
  events !! j = Some (Dialogue line_style text) ->
  styles !! line_style = None ->
  Forall (known styles) (firstn j events) ->
  exists out,
    getAssStyle_loop styles fileName events i0 S0
    = (Raise SystemExit,
       out ++ [unknown_style_message line_style (i0 + Z.of_nat j) fileName]).
Proof.
  revert i0 S0 j. induction events as [|e events IH]; intros i0 S0 j Hj Hnone Hk.
  { now rewrite lookup_nil in Hj. }
  destruct j as [|j].
  - simpl in Hj. injection Hj as ->. exists [].
    cbn [getAssStyle_loop]. unfold getitem. rewrite Hnone.
    cbn. now rewrite Z.add_0_r.
  - simpl in Hj. cbn [firstn] in Hk. apply Forall_cons in Hk as [He Hk].
    destruct (IH (i0 + 1) S0 j Hj Hnone Hk) as [out0 H0].
    replace (i0 + Z.of_nat (S j)) with (i0 + 1 + Z.of_nat j) by lia.
    destruct e as [nm tx|nm tx].
    + destruct He as [st Hst].
      destruct (parseLine_total tx st) as (F & o & HF).
      destruct (IH (i0 + 1) (S0 ∪ F) j Hj Hnone Hk) as [out Hloop].
      exists (o ++ out).
      cbn [getAssStyle_loop]. unfold getitem. rewrite Hst, bind_ret, HF.
      cbn [bind ret try_except_KeyError]. rewrite Hloop.
      now rewrite app_nil_r, <- app_assoc.
    + exists out0. exact H0.
Qed.
End GetAssStyle.

(** ** More on the sort of [searchFont] *)

Lemma key_leb_refl (k : key) : key_leb k k = true.
Proof. destruct k as [[a b] c]. apply key_leb_spec. lia. Qed.

Lemma key_eqb_eq (k1 k2 : key) : key_eqb k1 k2 = true <-> k1 = k2.
Proof.
  destruct k1 as [[a1 b1] c1], k2 as [[a2 b2] c2]. unfold key_eqb.
  rewrite !andb_true_iff, !Z.eqb_eq. split.
  - intros [[-> ->] ->]. reflexivity.
  - intros [= -> -> ->]. auto.
Qed.

Section Stable.
Context {A : Type} (k : A -> key) (k0 : key).

Lemma insert_by_stable (x : A) (l : list A) :
  List.filter (fun y => key_eqb (k y) k0) (insert_by k x l)
  = List.filter (fun y => key_eqb (k y) k0) (x :: l).
Proof.
  induction l as [|y l IH]; [reflexivity|].
  cbn [insert_by]. destruct (key_leb (k x) (k y)) eqn:Hxy; [reflexivity|].
  cbn [List.filter] in *. rewrite IH.
  destruct (key_eqb (k x) k0) eqn:Ex, (key_eqb (k y) k0) eqn:Ey; try reflexivity.
  apply key_eqb_eq in Ex, Ey. rewrite Ex, Ey, key_leb_refl in Hxy. discriminate.
Qed.

Lemma sort_by_stable (l : list A) :
  List.filter (fun y => key_eqb (k y) k0) (sort_by k l)
  = List.filter (fun y => key_eqb (k y) k0) l.
Proof.
  induction l as [|x l IH]; [reflexivity|].
  cbn [sort_by]. rewrite insert_by_stable. cbn [List.filter]. now rewrite IH.
Qed.
End Stable.

Lemma sorted_head_least {A} (k : A -> key) (x y : A) (l : list A) :
  StronglySorted (by_key k) (x :: l) -> In y (x :: l) -> by_key k x y.
Proof.
  intros Hs [<-|Hy].
  - apply key_leb_refl.
  - apply StronglySorted_inv in Hs as [_ Hall].
    rewrite List.Forall_forall in Hall. now apply Hall.
Qed.

Lemma searchFont_eq (pool : list Font) (style : AssStyle) :
  searchFont pool style
  = sort_by (sort_key style)
            (map (boost style) (List.filter (same_family style) pool)).
Proof.
  unfold searchFont, searchFont_run, sort_key.
  rewrite searchFont_loop_spec. now destruct (italic style).
Qed.

Lemma searchFont_sorted (pool : list Font) (style : AssStyle) :
  StronglySorted (by_key (sort_key style)) (searchFont pool style).
Proof. rewrite searchFont_eq. apply sort_by_sorted. Qed.

(** ** More on the sets of [findUsedFont] *)

Lemma FontSet_add_key (f : Font) (F : FontSet) :
  (forall k g, F !! k = Some g -> k = Font_key g) ->
  forall k g, FontSet_add f F !! k = Some g -> k = Font_key g.
Proof.
  intros HF k g. unfold FontSet_add. destruct (F !! Font_key f) eqn:E; [apply HF|].
  destruct (decide (k = Font_key f)) as [->|Hne].
  - rewrite lookup_insert_eq. now intros [= ->].
  - rewrite lookup_insert_ne by congruence. apply HF.
Qed.

Lemma loop_found_key (pool : list Font) (styles : list AssStyle)
    (M0 : gset str) (F : FontSet) :
  (forall k g, F !! k = Some g -> k = Font_key g) ->
  forall k g, (findUsedFont_loop pool styles M0 F).2 !! k = Some g ->
              k = Font_key g.
Proof.
  revert M0 F. induction styles as [|s styles IH]; intros M0 F HF; [exact HF|].
  cbn [findUsedFont_loop]. destruct (searchFont pool s); apply IH; auto.
  now apply FontSet_add_key.
Qed.

(** The first font of a key that is added stays. *)
Lemma FontSet_add_first (fonts : list Font) (F : FontSet) (k : str * bool * Z)
    (g : Font) :
  F !! k = Some g ->
  foldl (fun s f => FontSet_add f s) F fonts !! k = Some g.
Proof.
  revert F. induction fonts as [|f fonts IH]; intros F H; [exact H|].
  cbn [foldl]. apply IH. unfold FontSet_add.
  destruct (F !! Font_key f) eqn:E; [exact H|].
  rewrite lookup_insert_ne; [exact H|]. intros <-. congruence.
Qed.

Lemma FontSet_fold_values (fonts : list Font) (F : FontSet)
    (k : str * bool * Z) (g : Font) :
  foldl (fun s f => FontSet_add f s) F fonts !! k = Some g ->
  F !! k = Some g \/ (In g fonts /\ k = Font_key g).
Proof.
  revert F. induction fonts as [|f fonts IH]; intros F H; [now left|].
  cbn [foldl] in H. apply IH in H as [H|[H1 H2]].
  - unfold FontSet_add in H. destruct (F !! Font_key f) eqn:E; [now left|].
    destruct (decide (k = Font_key f)) as [->|Hne].
    + rewrite lookup_insert_eq in H. injection H as <-. right. split; [now left|auto].
    + rewrite lookup_insert_ne in H by congruence. now left.
  - right. split; [now right|auto].
Qed.

Lemma FontSet_fold_first (l1 l2 : list Font) (f : Font) :
  (forall g, In g l1 -> Font_key g <> Font_key f) ->
  foldl (fun s f => FontSet_add f s) ∅ (l1 ++ f :: l2) !! Font_key f = Some f.
Proof.
  intros Hno. rewrite foldl_app. cbn [foldl]. apply FontSet_add_first.
  unfold FontSet_add.
  destruct (foldl _ ∅ l1 !! Font_key f) as [g|] eqn:E.
  - apply FontSet_fold_values in E as [E|[Hg Hk]].
    + rewrite lookup_empty in E. discriminate.
    + now destruct (Hno g Hg).
  - apply lookup_insert_eq.
Qed.

(** ** Reading a font *)

Lemma land_1_odd (x : Z) : (0 <? Z.land x 1) = Z.odd x.
Proof.
  change 1 with (Z.ones 1) at 1. rewrite Z.land_ones by lia.
  change (2 ^ 1) with 2. rewrite Zmod_odd.
  now destruct (Z.odd x).
Qed.

Lemma name_details_other (records : list NameRecord) (d : gmap Z str) (n : Z) :
  (forall x, In x records -> nameID x <> n) ->
  foldl (fun details x =>
           match toStr x with
           | Some text => <[nameID x := text]> details
           | None => <[nameID x := string_decode_ignore x]> details
           end) d records !! n
  = d !! n.
Proof.
  revert d. induction records as [|x records IH]; intros d Hno; [reflexivity|].
  cbn [foldl]. rewrite IH by (intros y Hy; apply Hno; now right).
  assert (nameID x <> n) by (apply Hno; now left).
  destruct (toStr x); now apply lookup_insert_ne.
Qed.

Lemma name_details_none (records : list NameRecord) (d : gmap Z str) (n : Z) :
  foldl (fun details x =>
           match toStr x with
           | Some text => <[nameID x := text]> details
           | None => <[nameID x := string_decode_ignore x]> details
           end) d records !! n
  = None ->
  forall x, In x records -> nameID x <> n.
Proof.
  revert d. induction records as [|x records IH]; intros d H; [intros ? []|].
  cbn [foldl] in H. intros y [<-|Hy]; [|now apply (IH _ H)].
  intros Hn. rewrite name_details_other in H.
  - rewrite <- Hn in H. destruct (toStr x); rewrite lookup_insert_eq in H;
      discriminate.
  - intros z Hz. exact (IH _ H z Hz).
Qed.

Lemma name_details_last (l1 l2 : list NameRecord) (x : NameRecord) :
  (forall y, In y l2 -> nameID y <> nameID x) ->
  name_details (l1 ++ x :: l2) !! nameID x
  = Some (match toStr x with
          | Some text => text
          | None => string_decode_ignore x
          end).
Proof.
  intros Hno. unfold name_details. rewrite foldl_app. cbn [foldl].
  rewrite name_details_other by exact Hno.
  destruct (toStr x); apply lookup_insert_eq.
Qed.

(** ** Names *)

Lemma lstrip_snoc (l : str) (c : ascii) :
  is_space c = false -> lstrip (l ++ [c]) = lstrip l ++ [c].
Proof.
  intros Hc. induction l as [|x l IH]; simpl.
  - now rewrite Hc.
  - destruct (is_space x); [exact IH|reflexivity].
Qed.

Lemma strip_at (n : str) : strip ("@"%char :: n) = "@"%char :: rstrip n.
Proof.
  unfold strip, rstrip. cbn [lstrip]. change (is_space "@") with false.
  cbn [rev]. rewrite lstrip_snoc by reflexivity.
  now rewrite rev_app_distr.
Qed.

(** ** [getAssStyle] and the definitions of a style *)

Lemma getAssStyle_loop_ok_known (styles : gmap str AssStyle) (fileName : str)
    (events : list Event) (i0 : Z) (S0 S1 : gset AssStyle) (out : list str) :
  getAssStyle_loop styles fileName events i0 S0 = (Ok S1, out) ->
  Forall (known styles) events.
Proof.
  intros H. apply List.Forall_forall. intros e He.
  destruct e as [nm tx|nm tx]; simpl; [|exact I].
  destruct (styles !! nm) eqn:E; [eauto|].
  apply list_elem_of_In in He. apply list_elem_of_lookup_1 in He as [k Hk].
  destruct (getAssStyle_loop_unknown styles fileName events i0 S0)
    as (j & a & b & o & _ & _ & HR).
  { exists k, nm, tx. auto. }
  congruence.
Qed.

Lemma known_defined (styles : list Style) (events : list Event) :
  Forall (known (style_registry styles)) events
  <-> forall k line_style text,
        events !! k = Some (Dialogue line_style text) ->
        exists s, In s styles /\ name s = line_style.
Proof.
  split.
  - intros HF k nm tx Hk.
    apply list_elem_of_lookup_2, list_elem_of_In in Hk.
    rewrite List.Forall_forall in HF. specialize (HF _ Hk). simpl in HF.
    destruct HF as [st Hst].
    apply style_registry_some in Hst as (s & Hs & Hn & _). eauto.
  - intros H. apply List.Forall_forall. intros e He.
    destruct e as [nm tx|nm tx]; simpl; [|exact I].
    apply list_elem_of_In in He. apply list_elem_of_lookup_1 in He as [k Hk].
    destruct (H k nm tx Hk) as (s & Hs & Hn).
    destruct (style_registry styles !! nm) eqn:E; [eauto|].
    exfalso. exact (proj1 (style_registry_none styles nm) E s Hs Hn).
Qed.

Lemma style_registry_last_def (styles : list Style) (n : str) (st : AssStyle) :
  style_registry styles !! n = Some st
  <-> exists l1 d l2,
        styles = l1 ++ d :: l2 /\ name d = n
        /\ (forall d', In d' l2 -> name d' <> n)
        /\ st = registry_entry d.
Proof.
  split.
  - revert st. induction styles as [|x l IH] using rev_ind; intros st H.
    + rewrite style_registry_eq in H. simpl in H.
      rewrite lookup_empty in H. discriminate.
    + rewrite style_registry_eq, foldl_app in H. simpl in H.
      destruct (decide (name x = n)) as [En|En].
      * rewrite En, lookup_insert_eq in H.
        exists l, x, []. split; [reflexivity|]. split; [exact En|].
        split; [intros d' []|congruence].
      * rewrite lookup_insert_ne in H by exact En.
        rewrite <- style_registry_eq in H.
        destruct (IH st H) as (l1 & d & l2 & -> & Hn & Hl & ->).
        exists l1, d, (l2 ++ [x]).
        split; [now rewrite <- app_assoc|]. split; [exact Hn|].
        split; [|reflexivity].
        intros d' Hd'. apply in_app_or in Hd' as [Hd'|[<-|[]]]; auto.
  - intros (l1 & d & l2 & -> & <- & Hl & ->).
    now apply style_registry_last.
Qed.
(** ** The loop of [initializeFontCollection] *)

Lemma fontsPath_eq (findSystemFonts : option str -> list str)
    (dirs : list str) (init : list str) :
  foldl (fun fontsPath fontPath => fontsPath ++ findSystemFonts (Some fontPath))
        init dirs
  = init ++ concat (map (fun d => findSystemFonts (Some d)) dirs).
Proof.
  revert init. induction dirs as [|d dirs IH]; intros init; simpl.
  - now rewrite app_nil_r.
  - rewrite IH. now rewrite <- app_assoc.
Qed.

Lemma initializeFontCollection_loop_ok (TTFont_open : str -> M TTFont)
    (fontsPath : list str) (fonts : list Font) (S0 : FontSet) :
  Forall2 (fun path f =>
             exists font o1 o2,
               TTFont_open path = (Ok font, o1)
               /\ createFont path font = (Ok f, o2))
          fontsPath fonts ->
  exists out,
    initializeFontCollection_loop TTFont_open fontsPath S0
    = (Ok (foldl (fun s f => FontSet_add f s) S0 fonts), out).
Proof.
  intros HF. revert S0.
  induction HF as [|path f paths fonts (font & o1 & o2 & Ho & Hc) _ IH];
    intros S0.
  - exists []. reflexivity.
  - destruct (IH (FontSet_add f S0)) as (out & Hout).
    cbn [initializeFontCollection_loop foldl]. rewrite Ho.
    cbn [bind]. rewrite Hc. cbn [bind]. rewrite Hout.
    eexists. reflexivity.
Qed.

Lemma initializeFontCollection_loop_raise (TTFont_open : str -> M TTFont)
    (p1 p2 : list str) (path : str) (fonts1 : list Font) (e : exn)
    (S0 : FontSet) :
  Forall2 (fun path f =>
             exists font o1 o2,
               TTFont_open path = (Ok font, o1)
               /\ createFont path font = (Ok f, o2))
          p1 fonts1 ->
  ((exists o, TTFont_open path = (Raise e, o))
   \/ (exists font o1 o2,
         TTFont_open path = (Ok font, o1)
         /\ createFont path font = (Raise e, o2))) ->
  exists out,
    initializeFontCollection_loop TTFont_open (p1 ++ path :: p2) S0
    = (Raise e, out).
Proof.
  intros HF Hbad. revert S0.
  induction HF as [|q f paths fonts (font & o1 & o2 & Ho & Hc) _ IH];
    intros S0.
  - cbn [app initializeFontCollection_loop].
    destruct Hbad as [(o & Ho)|(font & o1 & o2 & Ho & Hc)].
    + rewrite Ho. eexists. reflexivity.
    + rewrite Ho. cbn [bind]. rewrite Hc. eexists. reflexivity.
  - destruct (IH (FontSet_add f S0)) as (out & Hout).
    change ((q :: paths) ++ path :: p2) with (q :: (paths ++ path :: p2)).
    cbn [initializeFontCollection_loop]. rewrite Ho.
    cbn [bind]. rewrite Hc. cbn [bind]. rewrite Hout.
    eexists. reflexivity.
Qed.

(** ** [createFont] on its two tables *)

Lemma createFont_eq (path : str) (font : TTFont) :
  createFont path font
  = match name_details (names font) !! 1 with
    | None => (Raise KeyError, [])
    | Some name1 =>
        match OS2_of font with
        | OS2 fsSelection usWeightClass =>
            (Ok (mkFont path (lower (strip name1))
                        (if usWeightClass <=? 9 then usWeightClass * 100
                         else usWeightClass)
                        (Z.odd fsSelection)), [])
        | OS2_struct_error =>
            (Ok (mkFont path (lower (strip name1)) 400 false),
             [no_OS2_warning path])
        | OS2_raises e => (Raise e, [])
        end
    end.
Proof.
  unfold createFont, getitem_Z.
  destruct (name_details (names font) !! 1) as [name1|]; [|reflexivity].
  destruct (OS2_of font) as [fs w| |e]; try reflexivity.
  cbn [bind ret app]. now rewrite land_1_odd.
Qed.

Lemma lower_at (s : str) : lower ("@"%char :: s) = "@"%char :: lower s.
Proof. reflexivity. Qed.

Lemma names_with_id (records : list NameRecord) (n : Z) :
  (exists x, In x records /\ nameID x = n)
  \/ (forall x, In x records -> nameID x <> n).
Proof.
  induction records as [|y l [(x & Hx & Hn)|IH]].
  - right. intros x [].
  - left. exists x. split; [now right|exact Hn].
  - destruct (decide (nameID y = n)) as [E|E].
    + left. exists y. split; [now left|exact E].
    + right. intros x [<-|Hx]; auto.
Qed.

Lemma name_details_missing (records : list NameRecord) (n : Z) :
  (forall x, In x records -> nameID x <> n)
  <-> name_details records !! n = None.
Proof.
  split.
  - intros H. unfold name_details.
    rewrite (name_details_other records ∅ n H). apply lookup_empty.
  - apply name_details_none.
Qed.
(** ** What the loops print *)



(** * The claims *)

(** C5: a candidate of the matching family is compared at its weight plus
    150 exactly when its weight is more than 150 below the required weight
    and the required weight is at most 850, and at its own weight
    otherwise; required 900 against 700 gets no boost, required 700 against
    500 is compared at 650. *)
Theorem C5_weight_boost (pool : list Font) (style : AssStyle) (f : Font) :
  In f pool ->
  f_fontName f = fontName style ->
  In (boost style f) (searchFont pool style)
  /\ (f_weight (boost style f) = f_weight f + 150
      <-> f_weight f < weight style - 150 /\ weight style <= 850)
  /\ (f_weight (boost style f) = f_weight f
      <-> ~ (f_weight f < weight style - 150 /\ weight style <= 850))
  /\ (forall path family i i',
        boost (mkAssStyle family 900 i') (mkFont path family 700 i)
        = mkFont path family 700 i)
  /\ (forall path family i i',
        boost (mkAssStyle family 700 i') (mkFont path family 500 i)
        = mkFont path family 650 i).
Proof.
  intros Hin Hfam. split; [|split; [|split; [|split]]].
  - apply searchFont_members. eauto.
  - rewrite <- boosted_iff.
    destruct (boost_fields style f) as (_ & _ & _ & ->).
    destruct (boosted style f); split; intros; auto; try lia; discriminate.
  - rewrite <- boosted_iff.
    destruct (boost_fields style f) as (_ & _ & _ & ->).
    destruct (boosted style f); split; intros H; auto; try lia; congruence.
  - reflexivity.
  - reflexivity.
Qed.

Lemma C5_weight_boost_witness :
  In arial_regular_500 [arial_bold; arial_regular_500]
  /\ In (boost bold_upright arial_regular_500)
        (searchFont [arial_bold; arial_regular_500] bold_upright)
  /\ f_weight (boost bold_upright arial_regular_500) = 650.
Proof.
  split; [right; left; reflexivity|].
  split; [|reflexivity].
  exact (proj1 (C5_weight_boost [arial_bold; arial_regular_500] bold_upright
                  arial_regular_500 (or_intror (or_introl eq_refl)) eq_refl)).
Defined.

(** C4: when the required style is italic, a candidate that comes earlier
    in the returned list is italic whenever a later one is; with equal
    italic flags its (boosted) weight is at least as close to the required
    weight; and at equal distance its (boosted) weight is not the larger. *)
Theorem C4_italic_first (pool : list Font) (style : AssStyle)
    (l1 l2 l3 : list Font) (a b : Font) :
  italic style = true ->
  searchFont pool style = l1 ++ a :: l2 ++ b :: l3 ->
  (f_italic b = true -> f_italic a = true)
  /\ (f_italic a = f_italic b ->
      Z.abs (weight style - f_weight a) <= Z.abs (weight style - f_weight b))
  /\ (f_italic a = f_italic b ->
      Z.abs (weight style - f_weight a) = Z.abs (weight style - f_weight b) ->
      f_weight a <= f_weight b).
Proof.
  intros Hit Hl.
  assert (Hs : StronglySorted (by_key (key_italic style)) (searchFont pool style)).
  { unfold searchFont, searchFont_run. rewrite Hit. simpl. apply sort_by_sorted. }
  rewrite Hl in Hs. apply sorted_earlier in Hs.
  unfold by_key, key_le, key_italic in Hs. apply key_leb_spec in Hs.
  destruct (f_italic a), (f_italic b); simpl in Hs |- *;
    repeat split; intros; try discriminate; auto; lia.
Qed.

Lemma C4_italic_first_witness :
  searchFont [arial_bold; arial_italic] bold_italic
  = [boost bold_italic arial_italic; arial_bold]
  /\ (f_italic arial_bold = true ->
      f_italic (boost bold_italic arial_italic) = true).
Proof.
  split; [reflexivity|].
  exact (proj1 (C4_italic_first [arial_bold; arial_italic] bold_italic
                  [] [] [] (boost bold_italic arial_italic) arial_bold
                  eq_refl eq_refl)).
Defined.

(** C10: [searchFont] leaves the collection it was given as it was; every
    font it returns has the path, family and italic flag of a member of the
    collection of the required family, and the weight of that member plus
    150 when the boost applied, so the caller sees the boosted weight: a
    lone member of weight 500 comes back with weight 650 for a required
    weight of 700. *)
Theorem C10_matcher_frame (pool : list Font) (style : AssStyle) :
  v_fontCollection (searchFont_run pool style) = pool
  /\ (forall f', In f' (searchFont pool style) ->
      exists f, In f pool
        /\ f_fontName f = fontName style
        /\ fontPath f' = fontPath f
        /\ f_fontName f' = f_fontName f
        /\ f_italic f' = f_italic f
        /\ f_weight f'
           = if (f_weight f <? weight style - 150) && (weight style <=? 850)
             then f_weight f + 150 else f_weight f)
  /\ (forall path family i i',
      searchFont [mkFont path family 500 i] (mkAssStyle family 700 i')
      = [mkFont path family 650 i]).
Proof.
  split; [apply searchFont_run_pool|]. split.
  - intros f' Hin. apply searchFont_members in Hin as (f & Hf & Hfam & ->).
    exists f. destruct (boost_fields style f) as (H1 & H2 & H3 & H4).
    repeat split; auto.
  - intros path family i i'.
    unfold searchFont, searchFont_run. rewrite searchFont_loop_spec. simpl.
    unfold same_family. simpl. rewrite str_eqb_refl. simpl.
    now destruct i'.
Qed.

(** C9: [findUsedFont] returns its set of found fonts, and every required
    style falls on one side only: either [searchFont] has a best match for
    it, that match is in the found set and the style's family is not
    reported missing; or [searchFont] has none, the family is reported
    missing and no found font is of that family. *)
Theorem C9_found_missing_partition (pool : list Font)
    (styles : list AssStyle) (style : AssStyle) :
  In style styles ->
  (exists out,
     findUsedFont pool styles
     = (Ok (findUsedFont_loop pool styles ∅ ∅).2, out))
  /\ ((exists best rest,
         searchFont pool style = best :: rest
         /\ FontSet_mem best (findUsedFont_loop pool styles ∅ ∅).2
         /\ fontName style ∉ (findUsedFont_loop pool styles ∅ ∅).1)
      \/ (searchFont pool style = []
          /\ fontName style ∈ (findUsedFont_loop pool styles ∅ ∅).1
          /\ forall k f, (findUsedFont_loop pool styles ∅ ∅).2 !! k = Some f ->
                         f_fontName f <> fontName style)).
Proof.
  intros Hin. split.
  - unfold findUsedFont.
    destruct (findUsedFont_loop pool styles ∅ ∅) as [M F]; simpl.
    destruct (0 <? size M)%nat; simpl; eauto.
  - destruct (searchFont pool style) as [|best rest] eqn:E.
    + right. split; [reflexivity|]. split.
      * apply loop_missing. right. exists style. auto.
      * intros k f Hk Hfam.
        apply loop_found_val in Hk as [Hk|(s & r & Hs & Hn)].
        -- rewrite lookup_empty in Hk. discriminate.
        -- assert (Hf : f_fontName f = fontName s).
           { apply (searchFont_family pool). rewrite Hn. now left. }
           rewrite (searchFont_nil_family pool style s) in Hn;
             [discriminate|congruence|exact E].
    + left. exists best, rest. split; [reflexivity|]. split.
      * apply loop_found. right. exists style, best, rest. auto.
      * intros Hm. apply loop_missing in Hm as [Hm|(s & Hs & Hn & Hfam)].
        -- now apply not_elem_of_empty in Hm.
        -- rewrite (searchFont_nil_family pool s style) in E;
             [discriminate|exact Hfam|exact Hn].
Qed.

Lemma C9_found_missing_partition_witness :
  In bold_upright [Default; bold_upright]
  /\ exists best rest,
       searchFont [arial_bold; arial_italic] bold_upright = best :: rest
       /\ FontSet_mem best
            (findUsedFont_loop [arial_bold; arial_italic]
                               [Default; bold_upright] ∅ ∅).2.
Proof.
  split; [right; left; reflexivity|].
  destruct (proj2 (C9_found_missing_partition [arial_bold; arial_italic]
                     [Default; bold_upright] bold_upright
                     (or_intror (or_introl eq_refl))))
    as [(best & rest & H1 & H2 & _)|(H1 & _)].
  - exists best, rest. auto.
  - discriminate H1.
Defined.

(** C3: of a tag string with one or more reset markers only the text after
    the last marker is read: [parseTags] gives what it gives on the text
    after any marker alone, the live text is that text when no marker
    follows, and when nothing follows the last marker the style comes back
    as it was given, with nothing printed. *)
Theorem C3_reset_rule (pre post : str) (style : AssStyle) :
  parseTags (pre ++ [bs; "r"%char] ++ post) style = parseTags post style
  /\ (findall TAG_R_PATTERN post = [] ->
      cleanTag_of (pre ++ [bs; "r"%char] ++ post) = ret post)
  /\ parseTags (pre ++ [bs; "r"%char]) style = (Ok style, []).
Proof.
  assert (Hclean : forall post',
             cleanTag_of (pre ++ [bs; "r"%char] ++ post') = cleanTag_of post').
  { intros post'. rewrite !cleanTag_of_eq.
    rewrite tail_by_reset by lia. reflexivity. }
  split; [|split].
  - unfold parseTags. now rewrite Hclean.
  - intros Hnone. rewrite Hclean.
    unfold findall in Hnone. apply map_eq_nil in Hnone.
    unfold cleanTag_of, split. rewrite Hnone. reflexivity.
  - specialize (Hclean []). rewrite app_nil_r in Hclean.
    unfold parseTags. rewrite Hclean. reflexivity.
Qed.

Lemma C3_reset_rule_witness :
  findall TAG_R_PATTERN (lit "\b1") = []
  /\ cleanTag_of (lit "\i1" ++ [bs; "r"%char] ++ lit "\b1") = ret (lit "\b1").
Proof.
  split; [reflexivity|].
  exact (proj1 (proj2 (C3_reset_rule (lit "\i1") (lit "\b1") Default))
               eq_refl).
Defined.

(** C2: the bold number [n] gives the weight 400 when [n <= 0], 700 when
    [n = 1], 100 from 2 to 150, 900 from 851 on, and in between the
    hundred of its band, [100 * ((n + 49) / 100)]; 150, 151, 250, 251, 850
    and 851 give 100, 200, 200, 300, 800 and 900; and when the live text is
    [pre ++ "\b" ++ arg ++ post] with no bold tag in [post], the weight is
    the one of the number [arg], whatever bold tags [pre] holds. *)
Theorem C2_bold_weight :
  (forall n style,
      weight (set_bold n style)
      = if n <=? 0 then 400
        else if n =? 1 then 700
        else if n <=? 150 then 100
        else if 851 <=? n then 900
        else 100 * ((n + 49) / 100))
  /\ (forall style,
        weight (set_bold 150 style) = 100
        /\ weight (set_bold 151 style) = 200
        /\ weight (set_bold 250 style) = 200
        /\ weight (set_bold 251 style) = 300
        /\ weight (set_bold 850 style) = 800
        /\ weight (set_bold 851 style) = 900)
  /\ (forall tags pre arg post n style,
        cleanTag_of tags = ret (pre ++ [bs; "b"%char] ++ arg ++ post) ->
        int arg = ret n ->
        findall TAG_BOLD_PATTERN post = [] ->
        no_digit_ahead post ->
        exists style' out,
          parseTags tags style = (Ok style', out)
          /\ weight style' = weight (set_bold n style)).
Proof.
  split; [|split].
  - intros n style. unfold set_bold.
    destruct (Z.leb_spec n 0); [reflexivity|].
    destruct (Z.eqb_spec n 1); [reflexivity|].
    destruct (Z.leb_spec 2 n); [|lia].
    destruct (Z.leb_spec n 150); [reflexivity|]. cbn [andb].
    destruct (Z.leb_spec 851 n) as [Hhi|Hhi];
      repeat match goal with
             | |- context [(?a <=? n) && (n <=? ?b)] =>
                 destruct (Z.leb_spec a n); [|lia];
                 destruct (Z.leb_spec n b);
                 cbn [andb weight replace_weight];
                 [Z.div_mod_to_equations; lia|]
             end;
      cbn [weight replace_weight]; lia.
  - intros style. repeat split; reflexivity.
  - intros tags pre arg post n style Hclean Hn Hnone Hpost.
    unfold parseTags. rewrite Hclean, bind_ret, nonempty_tag.
    rewrite (apply_bold_last pre arg post n style Hn (conj Hnone Hpost)).
    rewrite bind_ret.
    match goal with
    | |- context [apply_italic ?c ?s] =>
        destruct (apply_italic_total c s) as [-> | ->]
    end; rewrite bind_ret;
      match goal with
      | |- context [apply_fn ?c ?s] =>
          destruct (apply_fn_total c s) as (s' & out & -> & Hw & _)
      end; exists s', out; split; auto.
Qed.

Lemma C2_bold_weight_witness :
  cleanTag_of (lit "\b0\b1\}")
  = ret (lit "\b0" ++ [bs; "b"%char] ++ lit "1" ++ lit "\}")
  /\ exists style' out,
       parseTags (lit "\b0\b1\}") Default = (Ok style', out)
       /\ weight style' = weight (set_bold 1 Default).
Proof.
  split; [reflexivity|].
  exact (proj2 (proj2 C2_bold_weight) (lit "\b0\b1\}") (lit "\b0") (lit "1")
               (lit "\}") 1 Default eq_refl eq_refl eq_refl eq_refl).
Defined.

(** C7 as stated fails: [\i0] on a base style that is italic leaves the
    style italic. *)
Lemma C7_italic_zero_on_italic_base :
  parseTags (lit "\i0") Default_italic = (Ok Default_italic, [])
  /\ ~ (forall style style' out,
          parseTags (lit "\i0") style = (Ok style', out) ->
          italic style' = false).
Proof.
  assert (H : parseTags (lit "\i0") Default_italic = (Ok Default_italic, []))
    by reflexivity.
  split; [exact H|]. intros Hclaim. apply Hclaim in H. discriminate H.
Qed.

(** C7, amended: when the live text is [pre ++ "\i" ++ arg ++ post] with
    no italic tag in [post], an argument written [1] makes the style
    italic, and an argument whose number is not 1 leaves the italic flag
    of the base style as it is, whatever italic tags [pre] holds. *)
Theorem C7_italic_tag (tags pre arg post : str) (n : Z) (style : AssStyle) :
  cleanTag_of tags = ret (pre ++ [bs; "i"%char] ++ arg ++ post) ->
  int arg = ret n ->
  findall TAG_ITALIC_PATTERN post = [] ->
  no_digit_ahead post ->
  exists style' out,
    parseTags tags style = (Ok style', out)
    /\ (arg = lit "1" -> italic style' = true)
    /\ (n <> 1 -> italic style' = italic style).
Proof.
  intros Hclean Hn Hnone Hpost.
  assert (Harg : int_literal arg = true) by (apply int_literal_int; eauto).
  unfold parseTags. rewrite Hclean, bind_ret, nonempty_tag.
  assert (Hb : exists style1,
             apply_bold (pre ++ [bs; "i"%char] ++ arg ++ post) style = ret style1
             /\ italic style1 = italic style).
  { destruct (apply_bold_total (pre ++ [bs; "i"%char] ++ arg ++ post) style)
      as [H|[m H]]; rewrite H; eexists; split; try reflexivity.
    apply set_bold_fields. }
  destruct Hb as (style1 & -> & Hit1). rewrite bind_ret.
  rewrite (apply_italic_last pre arg post style1 Harg (conj Hnone Hpost)).
  rewrite bind_ret.
  match goal with
  | |- context [apply_fn ?c ?s] =>
      destruct (apply_fn_total c s) as (s' & out & -> & _ & Hit)
  end.
  exists s', out. split; [reflexivity|]. rewrite Hit. split.
  - intros ->. reflexivity.
  - intros Hne. destruct (str_eqb arg (lit "1")) eqn:E; [|exact Hit1].
    apply str_eqb_eq in E. subst arg. cbv in Hn. congruence.
Qed.

Lemma C7_italic_tag_witness :
  cleanTag_of (lit "\i0\i1\}")
  = ret (lit "\i0" ++ [bs; "i"%char] ++ lit "1" ++ lit "\}")
  /\ exists style' out,
       parseTags (lit "\i0\i1\}") Default = (Ok style', out)
       /\ italic style' = true.
Proof.
  split; [reflexivity|].
  destruct (C7_italic_tag (lit "\i0\i1\}") (lit "\i0") (lit "1") (lit "\}") 1
              Default eq_refl eq_refl eq_refl eq_refl)
    as (style' & out & H & Hone & _).
  exists style', out. split; [exact H|]. apply Hone. reflexivity.
Defined.

(** C8: when the name the last font-name match captures holds a
    parenthesis, [parseTags] returns normally, prints the warning and
    nothing else, and the font name of the style it returns is the one of
    the style it was given; so it is for the tag [\fnBell (MT)] of a block. *)
Theorem C8_fn_parenthesis (tags cleanTag font : str) (rest : list str)
    (style : AssStyle) :
  cleanTag_of tags = ret cleanTag ->
  cleanTag <> [] ->
  last_item (findall_groups TAG_FN_PATTERN 8 cleanTag) = ret (font :: rest) ->
  contains "(" font || contains ")" font = true ->
  (exists style',
      parseTags tags style = (Ok style', [fn_warning])
      /\ fontName style' = fontName style)
  /\ parseTags (lit "\fnBell (MT)\}") style
     = (Ok style, [fn_warning]).
Proof.
  intros Hclean Hne Hlast Hparen. split.
  - unfold parseTags. rewrite Hclean, bind_ret.
    assert (Hn : nonempty cleanTag = true)
      by (destruct cleanTag; [congruence|reflexivity]).
    rewrite Hn.
    assert (Hb : exists style1,
               apply_bold cleanTag style = ret style1
               /\ fontName style1 = fontName style).
    { destruct (apply_bold_total cleanTag style) as [H|[m H]]; rewrite H;
        eexists; split; try reflexivity. apply set_bold_fields. }
    destruct Hb as (style1 & -> & Hf1). rewrite bind_ret.
    assert (Hi : exists style2,
               apply_italic cleanTag style1 = ret style2
               /\ fontName style2 = fontName style1).
    { destruct (apply_italic_total cleanTag style1) as [H|H]; rewrite H;
        eexists; split; reflexivity. }
    destruct Hi as (style2 & -> & Hf2). rewrite bind_ret.
    unfold apply_fn. unfold last_item in Hlast.
    destruct (rev (findall_groups TAG_FN_PATTERN 8 cleanTag)) as [|lastFont l];
      [discriminate|].
    injection Hlast as ->.
    cbn [length Nat.ltb Nat.leb first]. rewrite bind_ret.
    assert (Hno : negb (contains "(" font) && negb (contains ")" font) = false).
    { rewrite <- negb_orb, Hparen. reflexivity. }
    rewrite Hno. exists style2. split; [reflexivity|congruence].
  - destruct style as [f w i]. reflexivity.
Qed.

Lemma C8_fn_parenthesis_witness :
  last_item (findall_groups TAG_FN_PATTERN 8 (lit "\fnBell (MT)\}"))
  = ret (lit "Bell (MT" :: [[]; []; []; []; []; []; []])
  /\ exists style',
       parseTags (lit "\fnBell (MT)\}") Default = (Ok style', [fn_warning])
       /\ fontName style' = fontName Default.
Proof.
  split; [reflexivity|].
  refine (proj1 (C8_fn_parenthesis (lit "\fnBell (MT)\}") (lit "\fnBell (MT)\}")
                   (lit "Bell (MT") [[]; []; []; []; []; []; []] Default
                   eq_refl _ eq_refl eq_refl)).
  discriminate.
Defined.

(** C1 as stated fails: the only override block of the line [{\b1}] is
    followed by no text, and its style is in the result all the same. *)
Lemma C1_style_of_block_without_text :
  line_pairs (lit "{\b1}") = [(lit "\b1", [])]
  /\ exists styleSet out,
       parseLine (lit "{\b1}") Default = (Ok styleSet, out)
       /\ bold_upright ∈ styleSet
       /\ styleSet <> ∅.
Proof.
  assert (Hpairs : line_pairs (lit "{\b1}") = [(lit "\b1", [])])
    by reflexivity.
  split; [exact Hpairs|].
  assert (Htags : parseTags (lit "\b1\}") Default = (Ok bold_upright, []))
    by reflexivity.
  unfold parseLine. rewrite Hpairs. cbn [parseLine_loop app].
  change (lit "\b1" ++ [bs; "}"%char]) with (lit "\b1\}").
  rewrite Htags. cbn [bind ret app].
  eexists _, _. split; [reflexivity|].
  split; [set_solver|]. intros H.
  assert (Hin : bold_upright ∈ (∅ ∪ {[bold_upright]} : gset AssStyle))
    by set_solver.
  rewrite H in Hin. set_solver.
Qed.

(** C1, amended: [parseLine] returns normally, and its result holds
    exactly the styles [parseTags] gives on the tag string built up to each
    (override block, text) pair of the line, whether the text of the pair
    is empty or not. *)
Theorem C1_every_block_counts (lineRawText : str) (style : AssStyle) :
  exists styleSet out,
    parseLine lineRawText style = (Ok styleSet, out)
    /\ forall s,
        s ∈ styleSet
        <-> exists before tags text after out',
              line_pairs lineRawText = before ++ (tags, text) :: after
              /\ parseTags (cumulative_tags (before ++ [(tags, text)])) style
                 = (Ok s, out').
Proof.
  destruct (parseLine_loop_spec (line_pairs lineRawText) style [] ∅)
    as (S1 & out & H & HS1).
  exists S1, out. split; [exact H|]. intros s. rewrite HS1. split.
  - intros [Hs|(before & [tags text] & after & out' & Hp & Hs)];
      [now apply not_elem_of_empty in Hs|].
    exists before, tags, text, after, out'. auto.
  - intros (before & tags & text & after & out' & Hp & Hs).
    right. exists before, (tags, text), after, out'. auto.
Qed.

(** C6: when a dialogue event names a style that the registry does not
    hold, [getAssStyle] does not return a set: it ends in [SystemExit], and
    the last line it prints names the style of such an event and the
    1-based number of that event in the event list. *)
Theorem C6_unknown_style_is_fatal (subtitle_styles : list Style)
    (subtitle_events : list Event) (fileName : str)
    (k : nat) (line_style text : str) :
  subtitle_events !! k = Some (Dialogue line_style text) ->
  style_registry subtitle_styles !! line_style = None ->
  exists (j : nat) (bad_style bad_text : str) (out : list str),
    subtitle_events !! j = Some (Dialogue bad_style bad_text)
    /\ style_registry subtitle_styles !! bad_style = None
    /\ getAssStyle subtitle_styles subtitle_events fileName
       = (Raise SystemExit,
          out ++ [Fore_RED ++ lit "Error: unknown style "
                    ++ quote ++ bad_style ++ quote
                    ++ lit " on line " ++ str_of_int (Z.of_nat j + 1)
                    ++ lit ". You need to correct the .ass file named "
                    ++ quote ++ fileName ++ quote ++ Fore_WHITE]).
Proof.
  intros Hk Hnone.
  destruct (getAssStyle_loop_unknown (style_registry subtitle_styles) fileName
              subtitle_events 0 ∅) as (j & nm & tx & out & Hj & Hn & H).
  { exists k, line_style, text. auto. }
  exists j, nm, tx, out. repeat split; auto.
Qed.

Lemma C6_unknown_style_is_fatal_witness :
  [OtherEvent (lit "Default") (lit "note");
   Dialogue (lit "Sign") (lit "Hello")] !! 1%nat
  = Some (Dialogue (lit "Sign") (lit "Hello"))
  /\ exists out,
       getAssStyle [mkStyle (lit "Default") (lit "Arial") false false]
                   [OtherEvent (lit "Default") (lit "note");
                    Dialogue (lit "Sign") (lit "Hello")]
                   (lit "test.ass")
       = (Raise SystemExit, out).
Proof.
  split; [reflexivity|].
  destruct (C6_unknown_style_is_fatal
              [mkStyle (lit "Default") (lit "Arial") false false]
              [OtherEvent (lit "Default") (lit "note");
               Dialogue (lit "Sign") (lit "Hello")]
              (lit "test.ass") 1 (lit "Sign") (lit "Hello") eq_refl eq_refl)
    as (j & nm & tx & out & _ & _ & H).
  eexists. exact H.
Defined.

(** * Further properties *)

(** ** The scanner *)


(** X2: the weight [parseTags] returns is the weight it was given or one
    of the hundreds from 100 to 900; so a style whose weight is such a
    hundred keeps a weight of that scale, whatever number a bold tag
    carries. *)
Theorem X2_parseTags_weight (tags : str) (style style' : AssStyle)
    (out : list str) :
  parseTags tags style = (Ok style', out) ->
  (weight style' = weight style \/ hundred (weight style'))
  /\ (hundred (weight style) -> hundred (weight style')).
Proof.
  intros H.
  destruct (parseTags_frame tags style) as (s & o & Hs & _ & Hw & _).
  assert (s = style') by congruence. subst s.
  split; [exact Hw|]. intros Hh. destruct Hw as [->|Hw]; auto.
Qed.

Lemma X2_parseTags_weight_witness :
  parseTags (lit "\b123456\}") Default = (Ok (mkAssStyle arial 900 false), [])
  /\ hundred (weight (mkAssStyle arial 900 false)).
Proof.
  assert (H : parseTags (lit "\b123456\}") Default
              = (Ok (mkAssStyle arial 900 false), [])) by reflexivity.
  split; [exact H|].
  apply (proj2 (X2_parseTags_weight _ _ _ _ H)).
  exists 4. simpl. lia.
Defined.

(** X3: no tag string takes the italic away: when the style given to
    [parseTags] is italic, so is the style it returns. *)
Theorem X3_parseTags_keeps_italic (tags : str) (style style' : AssStyle)
    (out : list str) :
  parseTags tags style = (Ok style', out) ->
  italic style = true -> italic style' = true.
Proof.
  intros H Hit.
  destruct (parseTags_frame tags style) as (s & o & Hs & _ & _ & Hi).
  assert (s = style') by congruence. subst s.
  destruct Hi as [Hi|Hi]; congruence.
Qed.

Lemma X3_parseTags_keeps_italic_witness :
  parseTags (lit "\i0\b1\}") Default_italic = (Ok bold_italic, [])
  /\ italic bold_italic = true.
Proof.
  assert (H : parseTags (lit "\i0\b1\}") Default_italic
              = (Ok bold_italic, [])) by reflexivity.
  split; [exact H|].
  exact (X3_parseTags_keeps_italic _ _ _ _ H eq_refl).
Defined.

(** X4: a line without an opening brace has no override block:
    [parseLine] prints nothing and returns the style of the line alone,
    and the empty set when the line is empty. *)
Theorem X4_parseLine_plain_text (text : str) (style : AssStyle) :
  forallb (not_chr "{") text = true ->
  exists styleSet,
    parseLine text style = (Ok styleSet, [])
    /\ forall s, s ∈ styleSet <-> text <> [] /\ s = style.
Proof.
  intros Hplain. unfold parseLine. rewrite (line_pairs_plain text Hplain).
  destruct text as [|c text].
  - exists ∅. split; [reflexivity|]. intros s. split.
    + intros Hs. now apply not_elem_of_empty in Hs.
    + intros [Hne _]. now destruct Hne.
  - cbn [parseLine_loop app]. rewrite parseTags_separator.
    cbn [bind ret app parseLine_loop].
    exists (∅ ∪ {[style]}). split; [reflexivity|]. intros s.
    rewrite elem_of_union, elem_of_singleton. split.
    + intros [Hs|Hs]; [now apply not_elem_of_empty in Hs|].
      split; [discriminate|exact Hs].
    + intros [_ Hs]. now right.
Qed.

Lemma X4_parseLine_plain_text_witness :
  exists styleSet,
    parseLine (lit "Hello }world") Default = (Ok styleSet, [])
    /\ (Default ∈ styleSet).
Proof.
  destruct (X4_parseLine_plain_text (lit "Hello }world") Default eq_refl)
    as (styleSet & H & Hs).
  exists styleSet. split; [exact H|].
  apply Hs. split; [discriminate|reflexivity].
Defined.

(** ** [getAssStyle] *)

(** X5: [getAssStyle] returns a set exactly when every dialogue event
    names a style that has a definition; events that are no dialogue lines
    are not looked at. *)
Theorem X5_getAssStyle_returns_iff (subtitle_styles : list Style)
    (subtitle_events : list Event) (fileName : str) :
  (exists styleSet out,
      getAssStyle subtitle_styles subtitle_events fileName = (Ok styleSet, out))
  <-> (forall k line_style text,
         subtitle_events !! k = Some (Dialogue line_style text) ->
         exists s, In s subtitle_styles /\ name s = line_style).
Proof.
  rewrite <- known_defined. unfold getAssStyle. split.
  - intros (styleSet & out & H).
    exact (getAssStyle_loop_ok_known _ _ _ _ _ _ _ H).
  - intros HF.
    destruct (getAssStyle_loop_known (style_registry subtitle_styles) fileName
                subtitle_events 0 ∅ HF) as (S1 & out & H & _).
    eauto.
Qed.

(** X6: the dialogue line that [getAssStyle] reports is the first one
    whose style has no definition: when the dialogue lines before event
    [j] all name defined styles and event [j] does not, the run ends in
    [SystemExit] and its last printed line names the style of event [j]
    and the number [j + 1]. *)
Theorem X6_first_unknown_style_reported (subtitle_styles : list Style)
    (subtitle_events : list Event) (fileName : str)
    (j : nat) (line_style text : str) :
  subtitle_events !! j = Some (Dialogue line_style text) ->
  (forall s, In s subtitle_styles -> name s <> line_style) ->
  (forall i nm tx,
      (i < j)%nat -> subtitle_events !! i = Some (Dialogue nm tx) ->
      exists s, In s subtitle_styles /\ name s = nm) ->
  exists out,
    getAssStyle subtitle_styles subtitle_events fileName
    = (Raise SystemExit,
       out ++ [Fore_RED ++ lit "Error: unknown style "
                 ++ quote ++ line_style ++ quote
                 ++ lit " on line " ++ str_of_int (Z.of_nat j + 1)
                 ++ lit ". You need to correct the .ass file named "
                 ++ quote ++ fileName ++ quote ++ Fore_WHITE]).
Proof.
  intros Hj Hnone Hbefore.
  apply style_registry_none in Hnone.
  assert (HF : Forall (known (style_registry subtitle_styles))
                      (firstn j subtitle_events)).
  { apply known_defined. intros i nm tx Hi.
    apply lookup_take_Some in Hi as [Hi Hlt]. eauto. }
  destruct (getAssStyle_loop_first_unknown (style_registry subtitle_styles)
              fileName subtitle_events 0 ∅ j line_style text Hj Hnone HF)
    as (out & H).
  exists out. exact H.
Qed.

Lemma X6_first_unknown_style_reported_witness :
  exists out,
    getAssStyle [mkStyle (lit "Default") (lit "Arial") false false]
                [Dialogue (lit "Default") (lit "one");
                 Dialogue (lit "Sign") (lit "two");
                 Dialogue (lit "Title") (lit "three")]
                (lit "test.ass")
    = (Raise SystemExit,
       out ++ [Fore_RED ++ lit "Error: unknown style "
                 ++ quote ++ lit "Sign" ++ quote
                 ++ lit " on line " ++ lit "2"
                 ++ lit ". You need to correct the .ass file named "
                 ++ quote ++ lit "test.ass" ++ quote ++ Fore_WHITE]).
Proof.
  apply (X6_first_unknown_style_reported
           [mkStyle (lit "Default") (lit "Arial") false false]
           [Dialogue (lit "Default") (lit "one");
            Dialogue (lit "Sign") (lit "two");
            Dialogue (lit "Title") (lit "three")]
           (lit "test.ass") 1 (lit "Sign") (lit "two") eq_refl).
  - intros s [<-|[]]. discriminate.
  - intros i nm tx Hi Hev.
    destruct i as [|i]; [|lia].
    exists (mkStyle (lit "Default") (lit "Arial") false false).
    split; [now left|].
    change (Some (Dialogue (lit "Default") (lit "one")) = Some (Dialogue nm tx))
      in Hev.
    now inversion Hev.
Defined.

(** X7: every style in the set [getAssStyle] returns has a weight that is
    one of the hundreds from 100 to 900. *)
Theorem X7_getAssStyle_weights (subtitle_styles : list Style)
    (subtitle_events : list Event) (fileName : str)
    (styleSet : gset AssStyle) (out : list str) (s : AssStyle) :
  getAssStyle subtitle_styles subtitle_events fileName = (Ok styleSet, out) ->
  s ∈ styleSet -> hundred (weight s).
Proof.
  unfold getAssStyle. intros H Hs.
  pose proof (getAssStyle_loop_ok_known _ _ _ _ _ _ _ H) as HF.
  destruct (getAssStyle_loop_known (style_registry subtitle_styles) fileName
              subtitle_events 0 ∅ HF) as (S1 & out1 & H1 & HS1).
  assert (S1 = styleSet) by congruence. subst S1.
  apply HS1 in Hs as [Hs|(nm & tx & st & F & o & _ & Hst & HP & Hs)];
    [now apply not_elem_of_empty in Hs|].
  apply style_registry_some in Hst as (d & _ & _ & ->).
  unfold parseLine in HP.
  destruct (parseLine_loop_spec (line_pairs tx) (registry_entry d) [] ∅)
    as (S2 & o2 & H2 & HS2).
  assert (S2 = F) by congruence. subst S2.
  apply HS2 in Hs as [Hs|(before & p & after & out' & _ & HT)];
    [now apply not_elem_of_empty in Hs|].
  destruct (parseTags_frame ([] ++ cumulative_tags (before ++ [p]))
              (registry_entry d)) as (s' & o' & Hs' & _ & Hw & _).
  assert (s' = s) by congruence. subst s'.
  destruct Hw as [Hw|Hw]; [|exact Hw].
  rewrite Hw. apply registry_entry_weight.
Qed.

Lemma X7_getAssStyle_weights_witness :
  exists styleSet,
    getAssStyle [mkStyle (lit "Default") (lit "Arial") false false]
                [Dialogue (lit "Default") (lit "{\b1}Hello{\i1} World")]
                (lit "hello.ass") = (Ok styleSet, [])
    /\ bold_italic ∈ styleSet
    /\ hundred (weight bold_italic).
Proof.
  destruct hello_world_document as (_ & (styleSet & H & HS) & _).
  exists styleSet. split; [exact H|].
  assert (Hin : bold_italic ∈ styleSet) by (apply HS; now right).
  split; [exact Hin|].
  exact (X7_getAssStyle_weights _ _ _ _ _ _ H Hin).
Defined.

(** X8: when every dialogue event names a defined style, the set
    [getAssStyle] returns holds exactly the styles [parseLine] finds in the
    text of a dialogue event, started from the last definition that carries
    the name the event gives: of two definitions of one name the later one
    counts. *)
Theorem X8_getAssStyle_last_definition (subtitle_styles : list Style)
    (subtitle_events : list Event) (fileName : str)
    (styleSet : gset AssStyle) (out : list str) (s : AssStyle) :
  getAssStyle subtitle_styles subtitle_events fileName = (Ok styleSet, out) ->
  s ∈ styleSet
  <-> exists line_style text l1 d l2 found out',
        In (Dialogue line_style text) subtitle_events
        /\ subtitle_styles = l1 ++ d :: l2
        /\ name d = line_style
        /\ (forall d', In d' l2 -> name d' <> line_style)
        /\ parseLine text
             (mkAssStyle (stripFontname (lower (strip (fontname d))))
                         (if bold d then 700 else 400) (s_italic d))
           = (Ok found, out')
        /\ s ∈ found.
Proof.
  unfold getAssStyle. intros H.
  pose proof (getAssStyle_loop_ok_known _ _ _ _ _ _ _ H) as HF.
  destruct (getAssStyle_loop_known (style_registry subtitle_styles) fileName
              subtitle_events 0 ∅ HF) as (S1 & out1 & H1 & HS1).
  assert (S1 = styleSet) by congruence. subst S1.
  split.
  - intros Hs.
    apply HS1 in Hs as [Hs|(nm & tx & st & F & o & Hev & Hst & HP & Hs)];
      [now apply not_elem_of_empty in Hs|].
    apply style_registry_last_def in Hst as (l1 & d & l2 & E & Hn & Hl & ->).
    exists nm, tx, l1, d, l2, F, o. auto 10.
  - intros (nm & tx & l1 & d & l2 & F & o & Hev & E & Hn & Hl & HP & Hs).
    apply HS1. right. exists nm, tx, (registry_entry d), F, o.
    split; [exact Hev|]. split; [|split; [exact HP|exact Hs]].
    apply style_registry_last_def. exists l1, d, l2. auto.
Qed.

Lemma X8_getAssStyle_last_definition_witness :
  exists styleSet,
    getAssStyle [mkStyle (lit "Default") (lit "Arial") false false;
                 mkStyle (lit "Default") (lit "Arial") true true]
                [Dialogue (lit "Default") (lit "Hello")]
                (lit "hello.ass") = (Ok styleSet, [])
    /\ bold_italic ∈ styleSet.
Proof.
  assert (HP : parseLine (lit "Hello") bold_italic
               = (Ok (∅ ∪ {[bold_italic]}), [])) by reflexivity.
  assert (H : getAssStyle [mkStyle (lit "Default") (lit "Arial") false false;
                           mkStyle (lit "Default") (lit "Arial") true true]
                          [Dialogue (lit "Default") (lit "Hello")]
                          (lit "hello.ass")
              = (Ok (∅ ∪ (∅ ∪ {[bold_italic]})), [])).
  { unfold getAssStyle. cbn [getAssStyle_loop].
    replace (style_registry _ !! lit "Default") with (Some bold_italic)
      by (symmetry;
          exact (style_registry_last
                   [mkStyle (lit "Default") (lit "Arial") false false] []
                   (mkStyle (lit "Default") (lit "Arial") true true)
                   (fun d' (F : In d' []) => match F with end))).
    reflexivity. }
  eexists. split; [exact H|].
  apply (proj2 (X8_getAssStyle_last_definition _ _ _ _ _ bold_italic H)).
  exists (lit "Default"), (lit "Hello"),
    [mkStyle (lit "Default") (lit "Arial") false false],
    (mkStyle (lit "Default") (lit "Arial") true true), [],
    (∅ ∪ {[bold_italic]}), [].
  split; [now left|]. split; [reflexivity|]. split; [reflexivity|].
  split; [intros d' []|]. split; [exact HP|].
  apply elem_of_union. right. now apply elem_of_singleton.
Defined.


(** ** [searchFont] *)

(** X10: when the required style is not italic, a candidate that comes
    earlier in the returned list is upright whenever a later one is; with
    equal italic flags its (boosted) weight is at least as close to the
    required weight; and at equal distance its (boosted) weight is not the
    larger. *)
Theorem X10_upright_first (pool : list Font) (style : AssStyle)
    (l1 l2 l3 : list Font) (a b : Font) :
  italic style = false ->
  searchFont pool style = l1 ++ a :: l2 ++ b :: l3 ->
  (f_italic b = false -> f_italic a = false)
  /\ (f_italic a = f_italic b ->
      Z.abs (weight style - f_weight a) <= Z.abs (weight style - f_weight b))
  /\ (f_italic a = f_italic b ->
      Z.abs (weight style - f_weight a) = Z.abs (weight style - f_weight b) ->
      f_weight a <= f_weight b).
Proof.
  intros Hit Hl.
  pose proof (searchFont_sorted pool style) as Hs.
  unfold sort_key in Hs. rewrite Hit, Hl in Hs. apply sorted_earlier in Hs.
  unfold by_key, key_le, key_upright in Hs. apply key_leb_spec in Hs.
  destruct (f_italic a), (f_italic b); simpl in Hs |- *;
    repeat split; intros; try discriminate; auto; lia.
Qed.

Lemma X10_upright_first_witness :
  searchFont [arial_italic; arial_bold] bold_upright
  = [arial_bold; boost bold_upright arial_italic]
  /\ (f_italic (boost bold_upright arial_italic) = false ->
      f_italic arial_bold = false).
Proof.
  split; [reflexivity|].
  exact (proj1 (X10_upright_first [arial_italic; arial_bold] bold_upright
                  [] [] [] arial_bold (boost bold_upright arial_italic)
                  eq_refl eq_refl)).
Defined.

(** X11: the sort of [searchFont] is stable: the candidates that share a
    sort key come back in the order in which the collection was gone
    through. *)
Theorem X11_equal_keys_keep_order (pool : list Font) (style : AssStyle)
    (k0 : key) :
  List.filter (fun f => key_eqb (sort_key style f) k0) (searchFont pool style)
  = List.filter (fun f => key_eqb (sort_key style f) k0)
                (map (boost style) (List.filter (same_family style) pool)).
Proof.
  rewrite searchFont_eq. apply sort_by_stable.
Qed.

(** X12: [searchFont] returns each member of the collection that has the
    family of the style once, boosted or not, and nothing else: the list
    has as many fonts as the collection has members of that family. *)
Theorem X12_every_candidate_once (pool : list Font) (style : AssStyle) :
  Permutation (searchFont pool style)
              (map (boost style) (List.filter (same_family style) pool))
  /\ length (searchFont pool style)
     = length (List.filter (same_family style) pool).
Proof.
  pose proof (searchFont_perm pool style) as HP.
  split; [exact HP|].
  rewrite (Permutation_length HP). apply length_map.
Qed.

(** X13: when the collection has a font of the family, the weight and the
    italic flag the style asks for, the first font [searchFont] returns has
    that family, weight and italic flag: it is equal to that font as
    [Font.__eq__] compares fonts. *)
Theorem X13_exact_match_first (pool : list Font) (style : AssStyle)
    (f : Font) :
  In f pool ->
  f_fontName f = fontName style ->
  f_weight f = weight style ->
  f_italic f = italic style ->
  exists best rest,
    searchFont pool style = best :: rest
    /\ Font_key best = Font_key f.
Proof.
  intros Hin Hfam Hw Hit.
  assert (Hb : boost style f = f).
  { unfold boost.
    destruct (boosted style f) eqn:E; [|reflexivity].
    apply boosted_iff in E. lia. }
  assert (Hf : In f (searchFont pool style)).
  { apply searchFont_members. exists f. auto. }
  destruct (searchFont pool style) as [|best rest] eqn:E; [destruct Hf|].
  exists best, rest. split; [reflexivity|].
  assert (Hbf : f_fontName best = fontName style).
  { apply (searchFont_family pool). rewrite E. now left. }
  pose proof (searchFont_sorted pool style) as Hs. rewrite E in Hs.
  pose proof (sorted_head_least _ best f rest Hs Hf) as Hle.
  unfold by_key, key_le, sort_key in Hle.
  unfold Font_key. rewrite Hbf, Hfam.
  destruct (italic style) eqn:Ei;
    unfold key_italic, key_upright in Hle; apply key_leb_spec in Hle;
    rewrite Hit, Hw in *;
    destruct (f_italic best); simpl in Hle;
    try (exfalso; lia);
    (assert (f_weight best = weight style) as -> by lia); reflexivity.
Qed.

Lemma X13_exact_match_first_witness :
  exists best rest,
    searchFont [arial_italic; arial_regular_500; arial_bold] bold_upright
    = best :: rest
    /\ Font_key best = Font_key arial_bold.
Proof.
  apply (X13_exact_match_first [arial_italic; arial_regular_500; arial_bold]
           bold_upright arial_bold).
  - right. right. left. reflexivity.
  - reflexivity.
  - reflexivity.
  - reflexivity.
Defined.

(** ** [findUsedFont] and [copyFont] *)

(** X14: [findUsedFont] prints the one line "All fonts found" exactly when
    the collection has, for every required style, a font of the family of
    the style; the weight and the italic flag of a style never make a font
    missing. *)
Theorem X14_all_fonts_found (pool : list Font) (styles : list AssStyle) :
  (exists found,
      findUsedFont pool styles
      = (Ok found, [Fore_LIGHTGREEN_EX ++ lit "All fonts found" ++ Fore_WHITE]))
  <-> (forall s, In s styles ->
         exists f, In f pool /\ f_fontName f = fontName s).
Proof.
  pose proof (loop_missing pool styles ∅ ∅) as HM.
  unfold findUsedFont.
  destruct (findUsedFont_loop pool styles ∅ ∅) as [M F]. simpl in HM.
  split.
  - intros (found & H) s Hs.
    destruct (0 <? size M)%nat eqn:E; [discriminate H|].
    assert (HM0 : M = ∅).
    { apply leibniz_equiv, size_empty_iff. apply Nat.ltb_ge in E. lia. }
    destruct (searchFont pool s) as [|best rest] eqn:Es.
    + exfalso. assert (Hin : fontName s ∈ M) by (apply HM; right; eauto).
      rewrite HM0 in Hin. now apply not_elem_of_empty in Hin.
    + assert (Hb : In best (searchFont pool s)) by (rewrite Es; now left).
      apply searchFont_members in Hb as (f & Hf & Hfam & _). eauto.
  - intros Hall.
    assert (HM0 : M = ∅).
    { apply elem_of_equiv_empty_L. intros x Hx.
      apply HM in Hx as [Hx|(s & Hs & Hn & _)];
        [now apply not_elem_of_empty in Hx|].
      destruct (Hall s Hs) as (f & Hf & Hfam).
      exact (proj1 (searchFont_nil pool s) Hn f Hf Hfam). }
    subst M. exists F. reflexivity.
Qed.

(** X15: when some required style has no font of its family in the
    collection, [findUsedFont] still returns its set of found fonts, and
    it prints three lines: the heading, the missing families one to a
    line, and the closing line.  The families listed are those of the
    required styles that no font of the collection has, each once. *)
Theorem X15_missing_families_listed (pool : list Font)
    (styles : list AssStyle) (style : AssStyle) :
  In style styles ->
  (forall f, In f pool -> f_fontName f <> fontName style) ->
  exists found names,
    findUsedFont pool styles
    = (Ok found,
       [Fore_RED ++ newline
          ++ lit "Error: Some fonts were not found. Are they installed? :";
        join_lines names;
        Fore_WHITE ++ newline])
    /\ NoDup names
    /\ forall x,
        In x names
        <-> exists s, In s styles /\ fontName s = x
                      /\ forall f, In f pool -> f_fontName f <> x.
Proof.
  intros Hin Hnone.
  pose proof (loop_missing pool styles ∅ ∅) as HM.
  unfold findUsedFont.
  destruct (findUsedFont_loop pool styles ∅ ∅) as [M F]. simpl in HM.
  assert (Hs : fontName style ∈ M).
  { apply HM. right. exists style. split; [exact Hin|].
    split; [|reflexivity]. now apply searchFont_nil. }
  assert (E : (0 <? size M)%nat = true).
  { apply Nat.ltb_lt.
    destruct (size M) eqn:Esz; [|lia].
    apply size_empty_iff, leibniz_equiv in Esz. rewrite Esz in Hs.
    now apply not_elem_of_empty in Hs. }
  rewrite E. exists F, (elements M). split; [reflexivity|].
  split; [apply NoDup_elements|]. intros x.
  rewrite <- list_elem_of_In, elem_of_elements, HM. split.
  - intros [Hx|(s & Hs' & Hn & Hfam)]; [now apply not_elem_of_empty in Hx|].
    exists s. split; [exact Hs'|]. split; [exact Hfam|].
    intros f Hf. rewrite <- Hfam. now apply (searchFont_nil pool s).
  - intros (s & Hs' & Hfam & Hno). right. exists s.
    split; [exact Hs'|]. split; [|exact Hfam].
    apply searchFont_nil. intros f Hf. rewrite Hfam. now apply Hno.
Qed.

Lemma X15_missing_families_listed_witness :
  exists found names,
    findUsedFont [arial_bold] [Default; mkAssStyle (lit "impact") 400 false]
    = (Ok found,
       [Fore_RED ++ newline
          ++ lit "Error: Some fonts were not found. Are they installed? :";
        join_lines names;
        Fore_WHITE ++ newline])
    /\ In (lit "impact") names.
Proof.
  destruct (X15_missing_families_listed [arial_bold]
              [Default; mkAssStyle (lit "impact") 400 false]
              (mkAssStyle (lit "impact") 400 false))
    as (found & names & H & _ & Hn).
  - right. left. reflexivity.
  - intros f [<-|[]]. discriminate.
  - exists found, names. split; [exact H|].
    apply Hn. exists (mkAssStyle (lit "impact") 400 false).
    split; [right; left; reflexivity|]. split; [reflexivity|].
    intros f [<-|[]]. discriminate.
Defined.

(** X16: whatever [copyFont] copies of the fonts [findUsedFont] found goes
    to the output directory, and it is the file of a font of the
    collection whose family a required style asks for: no file is copied
    that no style needs. *)
Theorem X16_copied_files_are_needed (pool : list Font)
    (styles : list AssStyle) (found : FontSet) (out : list str)
    (fonts : list Font) (outputDirectory src dst : str) :
  findUsedFont pool styles = (Ok found, out) ->
  (forall f, In f fonts -> exists k, found !! k = Some f) ->
  In (src, dst) (copyFont fonts outputDirectory) ->
  dst = outputDirectory
  /\ exists g s,
       In g pool /\ In s styles
       /\ f_fontName g = fontName s /\ src = fontPath g.
Proof.
  intros H Hfonts Hc.
  assert (HF : found = (findUsedFont_loop pool styles ∅ ∅).2).
  { unfold findUsedFont in H.
    destruct (findUsedFont_loop pool styles ∅ ∅) as [M F].
    destruct (0 <? size M)%nat; unfold bind, print, ret in H;
      injection H as <- _; reflexivity. }
  unfold copyFont in Hc. apply in_map_iff in Hc as (f & E & Hf).
  injection E as <- <-. split; [reflexivity|].
  destruct (Hfonts f Hf) as (k & Hk). rewrite HF in Hk.
  apply loop_found_val in Hk as [Hk|(s & rest & Hs & Hn)].
  - rewrite lookup_empty in Hk. discriminate.
  - assert (Hb : In f (searchFont pool s)) by (rewrite Hn; now left).
    apply searchFont_members in Hb as (g & Hg & Hfam & ->).
    exists g, s. destruct (boost_fields s g) as (Hp & _). auto.
Qed.

Lemma X16_copied_files_are_needed_witness :
  exists g s,
    In g [arial_bold; arial_italic] /\ In s [bold_upright]
    /\ f_fontName g = fontName s /\ lit "arialbd.ttf" = fontPath g.
Proof.
  apply (X16_copied_files_are_needed [arial_bold; arial_italic] [bold_upright]
           (FontSet_add arial_bold ∅) _ [arial_bold] (lit "out")
           (lit "arialbd.ttf") (lit "out") eq_refl).
  - intros f [<-|[]]. exists (Font_key arial_bold).
    unfold FontSet_add. rewrite lookup_empty. apply lookup_insert_eq.
  - left. reflexivity.
Defined.

(** ** [createFont] and [initializeFontCollection] *)

(** X17: the font [createFont] returns has the path it was given and a
    weight that is never between 1 and 9.  With an OS/2 table it prints
    nothing, the font is italic exactly when [fsSelection] is odd, and its
    weight is [usWeightClass], times 100 when that is 9 or less.  When
    reading the table raises [struct.error] it prints one warning and the
    font is upright with weight 400. *)
Theorem X17_createFont_weight_and_italic (path : str) (font : TTFont)
    (f : Font) (out : list str) :
  createFont path font = (Ok f, out) ->
  fontPath f = path
  /\ ~ (1 <= f_weight f <= 9)
  /\ (forall fsSelection usWeightClass,
        OS2_of font = OS2 fsSelection usWeightClass ->
        out = []
        /\ f_italic f = Z.odd fsSelection
        /\ f_weight f = (if usWeightClass <=? 9 then 100 * usWeightClass
                         else usWeightClass))
  /\ (OS2_of font = OS2_struct_error ->
      out = [no_OS2_warning path]
      /\ f_italic f = false /\ f_weight f = 400).
Proof.
  rewrite createFont_eq.
  destruct (name_details (names font) !! 1) as [name1|]; [|discriminate].
  destruct (OS2_of font) as [fs w| |e]; intros H; [| |discriminate].
  - injection H as <- <-. cbn [fontPath f_weight f_italic].
    split; [reflexivity|]. split.
    + destruct (Z.leb_spec w 9); lia.
    + split; [|discriminate].
      intros fs' w' E. injection E as <- <-.
      split; [reflexivity|]. split; [reflexivity|].
      destruct (w <=? 9); lia.
  - injection H as <- <-. cbn [fontPath f_weight f_italic].
    split; [reflexivity|]. split; [lia|]. split; [discriminate|].
    intros _. auto.
Qed.

Lemma X17_createFont_weight_and_italic_witness :
  createFont (lit "a.ttf")
             (mkTTFont [mkNameRecord 1 (Some (lit " Arial ")) []] (OS2 33 7))
  = (Ok (mkFont (lit "a.ttf") arial 700 true), [])
  /\ ~ (1 <= 700 <= 9).
Proof.
  assert (H : createFont (lit "a.ttf")
                (mkTTFont [mkNameRecord 1 (Some (lit " Arial ")) []] (OS2 33 7))
              = (Ok (mkFont (lit "a.ttf") arial 700 true), []))
    by reflexivity.
  split; [exact H|].
  exact (proj1 (proj2 (X17_createFont_weight_and_italic _ _ _ _ H))).
Defined.

(** X18: the family of the font [createFont] returns is the text of the
    last record of the name table with name ID 1, stripped and in lower
    case; the text is what [toStr] gives, or the bytes decoded with errors
    ignored when [toStr] fails. *)
Theorem X18_createFont_family (path : str) (font : TTFont)
    (l1 l2 : list NameRecord) (x : NameRecord) (f : Font) (out : list str) :
  names font = l1 ++ x :: l2 ->
  nameID x = 1 ->
  (forall y, In y l2 -> nameID y <> 1) ->
  createFont path font = (Ok f, out) ->
  f_fontName f
  = lower (strip (match toStr x with
                  | Some text => text
                  | None => string_decode_ignore x
                  end)).
Proof.
  intros Hn Hx Hl. rewrite createFont_eq, Hn.
  rewrite <- Hx in Hl |- *. rewrite (name_details_last l1 l2 x Hl).
  destruct (OS2_of font) as [fs w| |e]; intros H; [| |discriminate];
    injection H as <- <-; reflexivity.
Qed.

Lemma X18_createFont_family_witness :
  exists f,
    createFont (lit "a.ttf")
      (mkTTFont [mkNameRecord 1 (Some (lit "Helvetica")) [];
                 mkNameRecord 2 (Some (lit "Bold")) [];
                 mkNameRecord 1 None (lit " Arial ")]
                OS2_struct_error)
    = (Ok f, [no_OS2_warning (lit "a.ttf")])
    /\ f_fontName f = arial.
Proof.
  eexists. split; [reflexivity|].
  exact (X18_createFont_family (lit "a.ttf")
           (mkTTFont [mkNameRecord 1 (Some (lit "Helvetica")) [];
                      mkNameRecord 2 (Some (lit "Bold")) [];
                      mkNameRecord 1 None (lit " Arial ")]
                     OS2_struct_error)
           [mkNameRecord 1 (Some (lit "Helvetica")) [];
            mkNameRecord 2 (Some (lit "Bold")) []]
           [] (mkNameRecord 1 None (lit " Arial ")) _ _
           eq_refl eq_refl (fun y (F : In y []) => match F with end) eq_refl).
Defined.

(** X19: [createFont] returns a font exactly when the name table has a
    record with name ID 1 and reading the OS/2 table raises nothing but
    [struct.error]; without a record with name ID 1 it raises [KeyError]
    and prints nothing, whatever the OS/2 table. *)
Theorem X19_createFont_returns_iff (path : str) (font : TTFont) :
  ((exists f out, createFont path font = (Ok f, out))
   <-> (exists x, In x (names font) /\ nameID x = 1)
       /\ (forall e, OS2_of font <> OS2_raises e))
  /\ ((forall x, In x (names font) -> nameID x <> 1) ->
      createFont path font = (Raise KeyError, [])).
Proof.
  pose proof (name_details_missing (names font) 1) as Hnone.
  rewrite createFont_eq. split.
  - split.
    + intros (f & out & H).
      destruct (name_details (names font) !! 1) as [name1|] eqn:E;
        [|discriminate]. split.
      * destruct (names_with_id (names font) 1) as [Hex|Hno]; [exact Hex|].
        apply Hnone in Hno. congruence.
      * intros e He. rewrite He in H. discriminate.
    + intros ((x & Hx & Hid) & Hos).
      destruct (name_details (names font) !! 1) as [name1|] eqn:E.
      * destruct (OS2_of font) as [fs w| |e]; eauto.
        now destruct (Hos e).
      * exfalso. exact (proj2 Hnone eq_refl x Hx Hid).
  - intros Hno. apply Hnone in Hno. rewrite Hno. reflexivity.
Qed.

(** X20: [initializeFontCollection] goes through the installed fonts,
    then the additional files, then the fonts of the additional
    directories.  When every file opens and gives a font, it returns a
    collection that holds only such fonts, and of the fonts that are equal
    as [Font.__eq__] compares them it keeps the one met first: an installed
    font is never replaced by an additional one. *)
Theorem X20_first_font_of_a_key_is_kept
    (findSystemFonts : option str -> list str)
    (TTFont_open : str -> M TTFont)
    (additionalFontsDirectoryPath additionalFontsFilePath : list str)
    (fonts : list Font) :
  Forall2 (fun path f =>
             exists font o1 o2,
               TTFont_open path = (Ok font, o1)
               /\ createFont path font = (Ok f, o2))
          (findSystemFonts None ++ additionalFontsFilePath
             ++ concat (map (fun d => findSystemFonts (Some d))
                            additionalFontsDirectoryPath))
          fonts ->
  exists fontCollection out,
    initializeFontCollection findSystemFonts TTFont_open
      additionalFontsDirectoryPath additionalFontsFilePath
    = (Ok fontCollection, out)
    /\ (forall k g, fontCollection !! k = Some g ->
                    In g fonts /\ k = Font_key g)
    /\ (forall l1 f l2,
          fonts = l1 ++ f :: l2 ->
          (forall g, In g l1 -> Font_key g <> Font_key f) ->
          fontCollection !! Font_key f = Some f).
Proof.
  intros HF. unfold initializeFontCollection.
  rewrite fontsPath_eq, <- app_assoc.
  destruct (initializeFontCollection_loop_ok TTFont_open _ fonts ∅ HF)
    as (out & H).
  eexists _, out. split; [exact H|]. split.
  - intros k g Hk. apply FontSet_fold_values in Hk as [Hk|Hk]; [|exact Hk].
    rewrite lookup_empty in Hk. discriminate.
  - intros l1 f l2 -> Hl. now apply FontSet_fold_first.
Qed.

Lemma X20_first_font_of_a_key_is_kept_witness :
  exists fontCollection out,
    initializeFontCollection
      (fun d => match d with None => [lit "sys.ttf"] | Some _ => [] end)
      (fun _ => ret (mkTTFont [mkNameRecord 1 (Some (lit "Arial")) []]
                              (OS2 0 7)))
      [] [lit "extra.ttf"]
    = (Ok fontCollection, out)
    /\ fontCollection !! (arial, false, 700)
       = Some (mkFont (lit "sys.ttf") arial 700 false).
Proof.
  destruct (X20_first_font_of_a_key_is_kept
              (fun d => match d with None => [lit "sys.ttf"] | Some _ => [] end)
              (fun _ => ret (mkTTFont [mkNameRecord 1 (Some (lit "Arial")) []]
                                      (OS2 0 7)))
              [] [lit "extra.ttf"]
              [mkFont (lit "sys.ttf") arial 700 false;
               mkFont (lit "extra.ttf") arial 700 false])
    as (fontCollection & out & H & _ & Hfirst).
  - repeat constructor; eexists _, _, _; split; reflexivity.
  - exists fontCollection, out. split; [exact H|].
    apply (Hfirst [] (mkFont (lit "sys.ttf") arial 700 false)
                  [mkFont (lit "extra.ttf") arial 700 false] eq_refl).
    intros g [].
Defined.

(** X21: one file that cannot be read ends [initializeFontCollection]:
    when the files before it give fonts and this one raises, on opening or
    in [createFont] (a name table without name ID 1 raises [KeyError]),
    the exception goes to the caller and no collection is returned. *)
Theorem X21_unreadable_font_ends_the_run
    (findSystemFonts : option str -> list str)
    (TTFont_open : str -> M TTFont)
    (additionalFontsDirectoryPath additionalFontsFilePath : list str)
    (p1 p2 : list str) (path : str) (fonts1 : list Font) (e : exn) :
  findSystemFonts None ++ additionalFontsFilePath
    ++ concat (map (fun d => findSystemFonts (Some d))
                   additionalFontsDirectoryPath)
  = p1 ++ path :: p2 ->
  Forall2 (fun path f =>
             exists font o1 o2,
               TTFont_open path = (Ok font, o1)
               /\ createFont path font = (Ok f, o2))
          p1 fonts1 ->
  ((exists o, TTFont_open path = (Raise e, o))
   \/ (exists font o1 o2,
         TTFont_open path = (Ok font, o1)
         /\ createFont path font = (Raise e, o2))) ->
  exists out,
    initializeFontCollection findSystemFonts TTFont_open
      additionalFontsDirectoryPath additionalFontsFilePath
    = (Raise e, out).
Proof.
  intros Hp HF Hbad. unfold initializeFontCollection.
  rewrite fontsPath_eq, <- app_assoc, Hp.
  exact (initializeFontCollection_loop_raise TTFont_open p1 p2 path fonts1 e ∅
           HF Hbad).
Qed.

Lemma X21_unreadable_font_ends_the_run_witness :
  exists out,
    initializeFontCollection
      (fun d => match d with
                | None => [lit "sys.ttf"]
                | Some _ => [lit "noname.ttf"]
                end)
      (fun path =>
         if str_eqb path (lit "sys.ttf")
         then ret (mkTTFont [mkNameRecord 1 (Some (lit "Arial")) []] (OS2 0 7))
         else ret (mkTTFont [mkNameRecord 4 (Some (lit "Arial Bold")) []]
                            (OS2 0 7)))
      [lit "fonts"] []
    = (Raise KeyError, out).
Proof.
  apply (X21_unreadable_font_ends_the_run
           (fun d => match d with
                     | None => [lit "sys.ttf"]
                     | Some _ => [lit "noname.ttf"]
                     end)
           (fun path =>
              if str_eqb path (lit "sys.ttf")
              then ret (mkTTFont [mkNameRecord 1 (Some (lit "Arial")) []]
                                 (OS2 0 7))
              else ret (mkTTFont [mkNameRecord 4 (Some (lit "Arial Bold")) []]
                                 (OS2 0 7)))
           [lit "fonts"] [] [lit "sys.ttf"] [] (lit "noname.ttf")
           [mkFont (lit "sys.ttf") arial 700 false] KeyError eq_refl).
  - repeat constructor. eexists _, _, _. split; reflexivity.
  - right. eexists _, _, _. split; reflexivity.
Defined.

(** ** Names and files *)

(** X22: a style whose font name is [@] followed by a name that starts
    with no white space asks for the family that [createFont] gives to a
    font of that name: the name, stripped and in lower case, without the
    [@]. *)
Theorem X22_at_sign_is_dropped (style_name n : str) (b i : bool)
    (path : str) (font : TTFont) (f : Font) (out : list str) :
  lstrip n = n ->
  name_details (names font) !! 1 = Some n ->
  createFont path font = (Ok f, out) ->
  fontName (registry_entry (mkStyle style_name ("@"%char :: n) b i))
  = f_fontName f.
Proof.
  intros Hn Hd. rewrite createFont_eq, Hd. intros H.
  assert (Hf : f_fontName f = lower (strip n)).
  { destruct (OS2_of font) as [fs w| |e]; [| |discriminate];
      injection H as <- <-; reflexivity. }
  rewrite Hf. unfold registry_entry. cbn [fontname fontName].
  rewrite strip_at, lower_at.
  assert (Hs : strip n = rstrip n) by (unfold strip, rstrip; now rewrite Hn).
  rewrite Hs. reflexivity.
Qed.

Lemma X22_at_sign_is_dropped_witness :
  fontName (registry_entry (mkStyle (lit "Vertical") (lit "@Arial ") false false))
  = arial.
Proof.
  exact (X22_at_sign_is_dropped (lit "Vertical") (lit "Arial ") false false
           (lit "a.ttf")
           (mkTTFont [mkNameRecord 1 (Some (lit "Arial ")) []] (OS2 0 400))
           (mkFont (lit "a.ttf") arial 400 false) [] eq_refl eq_refl eq_refl).
Defined.

(** X23: [isMkv] answers [True] exactly for the files whose first four
    bytes are 1A 45 DF A3; a file of fewer than four bytes, the empty file
    among them, is no Matroska file. *)
Theorem X23_isMkv_signature (content : str) :
  (isMkv content = true
   <-> exists rest,
         content = ascii_of_nat 26 :: ascii_of_nat 69 :: ascii_of_nat 223
                     :: ascii_of_nat 163 :: rest)
  /\ ((length content < 4)%nat -> isMkv content = false).
Proof.
  unfold isMkv. split.
  - rewrite str_eqb_eq. split.
    + intros H. exists (skipn 4 content).
      rewrite <- (firstn_skipn 4 content) at 1. rewrite H. reflexivity.
    + intros (rest & ->). reflexivity.
  - intros Hlen.
    destruct (str_eqb (firstn 4 content) mkv_signature) eqn:E; [|reflexivity].
    apply str_eqb_eq in E. apply (f_equal (@length ascii)) in E.
    rewrite length_firstn in E.
    change (length mkv_signature) with 4%nat in E. lia.
Qed.
